(** * noise_recorder: a model of [recorder.py]

    The development follows the layout of the source file:

    - [PyStr]     Python strings as lists of code points, [re.sub] for a
                  pattern of the shape [class+], slicing;
    - [Py]        exception classes, [isinstance], results of calls;
    - [Env]       the file system, [sounddevice], [soundfile], [tempfile];
    - [Session]   the class [_RecordingSession]: one capture thread with its
                  chunk queue, stop flag and output file;
    - [Recorder]  [input_devices] and the class [Recorder]: the list of
                  recording threads and the methods [record], [recording],
                  [stop] and [__del__];
    - [Scenario]  a machine with two microphones, for the examples.

    Calls into [sounddevice], [soundfile], [tempfile] and the file system are
    modelled at their interface: what they return or raise is supplied by
    the environment, what the program does with it is taken from the
    source. *)

From Stdlib Require Import NArith ZArith Ascii String Lia.
From Equations Require Import Equations.
From stdpp Require Import gmap strings list fin_maps.

Open Scope list_scope.

(* ===================================================================== *)
(** ** Python strings                                                     *)
(* ===================================================================== *)

Module PyStr.

(** A Python [str] is a sequence of Unicode code points. *)
Abbreviation char := N (only parsing).
Abbreviation pystr := (list N) (only parsing).

(** Literals of the examples are written as Rocq strings. *)
Definition str (s : string) : pystr :=
  map N_of_ascii (list_ascii_of_string s).

(** A character class of [re]: a list of inclusive ranges, possibly
    negated by a leading [^]. *)
Record char_class := CharClass {
  negated : bool;
  ranges : list (char * char)
}.

Definition in_range (c : char) (r : char * char) : bool :=
  (fst r <=? c)%N && (c <=? snd r)%N.

Definition class_matches (k : char_class) (c : char) : bool :=
  xorb (negated k) (existsb (in_range c) (ranges k)).

(** [[^a-zA-Z0-9]] *)
Definition non_alnum_class : char_class :=
  CharClass true [(97, 122); (65, 90); (48, 57)]%N.

(** The characters [a-z], [A-Z] and [0-9]. *)
Definition is_alnum (c : char) : bool :=
  ((97 <=? c) && (c <=? 122) || (65 <=? c) && (c <=? 90)
   || (48 <=? c) && (c <=? 57))%N.

(** The rest of the subject after the longest match of [class+] that starts
    with its first character already consumed: [+] is greedy. *)
Fixpoint skip_class (k : char_class) (s : pystr) : pystr :=
  match s with
  | [] => []
  | c :: r => if class_matches k c then skip_class k r else s
  end.

(** [re.sub(class+, repl, s)]: scanning from the left, the leftmost match is
    replaced by [repl] and the scan goes on after it; a character at which
    no match starts is copied. *)
Equations? re_sub_class_plus (k : char_class) (repl s : pystr) : pystr
  by wf (length s) lt :=
  re_sub_class_plus k repl [] := [];
  re_sub_class_plus k repl (c :: r) with class_matches k c := {
    | true := repl ++ re_sub_class_plus k repl (skip_class k r);
    | false := c :: re_sub_class_plus k repl r }.
Proof.
  - assert (Hskip : length (skip_class k r) <= length r); [|simpl; lia].
    clear. induction r as [|c r IH]; simpl; [lia|].
    destruct (class_matches k c); simpl; lia.
  - simpl; lia.
Qed.

(** [s[:n]] *)
Definition slice_to (n : nat) (s : pystr) : pystr := take n s.

(** The separator ["_"]. *)
Definition underscore : pystr := [95%N].

(** Lines 55-57 of [_RecordingSession.run]:
<<
    mic_directory = re.sub("[^a-zA-Z0-9]+", "_", device_name)
    if len(mic_directory) > 40:
        mic_directory = mic_directory[:40]
>> *)
Definition mic_directory (device_name : pystr) : pystr :=
  let mic_directory := re_sub_class_plus non_alnum_class underscore device_name in
  if 40 <? length mic_directory then slice_to 40 mic_directory
  else mic_directory.

(** *** The wording of the specification

    "all non-alphanumeric runs collapsed to a single separator, truncated
    to a bounded length (40 characters)".  The name is cut into its maximal
    runs of characters of one kind; every run of non-alphanumeric characters
    becomes one separator. *)

(** Puts [c], of kind [b], in front of a list of runs. *)
Definition cons_run (b : bool) (c : char) (rs : list (bool * pystr))
  : list (bool * pystr) :=
  match rs with
  | (b', run) :: rs' =>
      if Bool.eqb b b' then (b', c :: run) :: rs' else (b, [c]) :: rs
  | [] => [(b, [c])]
  end.

(** The maximal runs of [s], each with its kind: [true] for a run of
    characters outside [a-zA-Z0-9]. *)
Fixpoint runs (s : pystr) : list (bool * pystr) :=
  match s with
  | [] => []
  | c :: r => cons_run (negb (is_alnum c)) c (runs r)
  end.

Definition collapse_run (r : bool * pystr) : pystr :=
  if fst r then underscore else snd r.

Definition collapsed (rs : list (bool * pystr)) : pystr :=
  concat (map collapse_run rs).

Definition spec_directory_name (device_name : pystr) : pystr :=
  take 40 (collapsed (runs device_name)).

(** What makes [runs] the decomposition into maximal runs: every run is
    non-empty and of one kind, and two neighbours are of different kinds. *)
Definition run_ok (r : bool * pystr) : Prop :=
  snd r <> [] /\ Forall (fun c => negb (is_alnum c) = fst r) (snd r).

Fixpoint alternating (rs : list (bool * pystr)) : Prop :=
  match rs with
  | r1 :: (r2 :: _) as rest => fst r1 <> fst r2 /\ alternating rest
  | _ => True
  end.

Definition head_kind (rs : list (bool * pystr)) : bool :=
  match rs with (b, _) :: _ => b | [] => false end.

End PyStr.

(* ===================================================================== *)
(** ** Exceptions                                                         *)
(* ===================================================================== *)

Module Py.

(** The exception classes the program raises, catches or receives from the
    libraries it calls. *)
Inductive exn_class :=
  | BaseException
  | KeyboardInterrupt
  | Exception
  | OSError
  | TimeoutError
  | FileExistsError
  | RuntimeError
  | ValueError
  | AttributeError
  | TypeError
  | queue_Empty        (* queue.Empty *)
  | PortAudioError     (* sounddevice.PortAudioError *)
  | LibsndfileError.   (* soundfile.LibsndfileError *)

(** The base class of a class, as Python and the three libraries declare
    it. *)
Definition base (c : exn_class) : option exn_class :=
  match c with
  | BaseException => None
  | KeyboardInterrupt => Some BaseException
  | Exception => Some BaseException
  | OSError => Some Exception
  | TimeoutError => Some OSError
  | FileExistsError => Some OSError
  | RuntimeError => Some Exception
  | ValueError => Some Exception
  | AttributeError => Some Exception
  | TypeError => Some Exception
  | queue_Empty => Some Exception
  | PortAudioError => Some Exception
  | LibsndfileError => Some RuntimeError
  end.

Definition exn_class_eqb (a b : exn_class) : bool :=
  match a, b with
  | BaseException, BaseException | KeyboardInterrupt, KeyboardInterrupt
  | Exception, Exception | OSError, OSError | TimeoutError, TimeoutError
  | FileExistsError, FileExistsError | RuntimeError, RuntimeError
  | ValueError, ValueError | AttributeError, AttributeError
  | TypeError, TypeError
  | queue_Empty, queue_Empty | PortAudioError, PortAudioError
  | LibsndfileError, LibsndfileError => true
  | _, _ => false
  end.

(** [issubclass(c, d)]; the hierarchy is four classes deep. *)
Fixpoint issubclass_upto (depth : nat) (c d : exn_class) : bool :=
  exn_class_eqb c d ||
  match depth with
  | O => false
  | S depth' =>
      match base c with
      | Some b => issubclass_upto depth' b d
      | None => false
      end
  end.

Definition issubclass : exn_class -> exn_class -> bool := issubclass_upto 4.

(** An exception object: its class and its message. *)
Record exn := Exn { exn_cls : exn_class; exn_msg : string }.

Definition isinstance (e : exn) (c : exn_class) : bool :=
  issubclass (exn_cls e) c.

(** What a call gives back: a value, or an exception. *)
Inductive result (A : Type) :=
  | Return (a : A)
  | Raise (e : exn).
Arguments Return {A} a.
Arguments Raise {A} e.

End Py.

(* ===================================================================== *)
(** ** The world outside the program                                      *)
(* ===================================================================== *)

Module Env.
Import PyStr Py.

(** One block of audio samples, as [indata.copy()] holds it. *)
Abbreviation chunk := (list Z) (only parsing).

(** A path is a string. *)
Abbreviation path := (list N) (only parsing).

(** [Path(a, b)], and [os.path.join(a, b)] for a [b] that is not empty: an
    absolute [b] replaces [a].  [Path] also tidies the text of the path
    (a leading [./] goes); that is left out, a path is compared with paths
    built the same way only. *)
Definition join (a b : path) : path :=
  match b with
  | [] => a
  | 47%N :: _ => b
  | _ => a ++ [47%N] ++ b
  end.

(** The file system: the directories, and the audio files with the chunks
    written to each. *)
Record filesystem := FileSystem {
  dirs : gset (list N);
  files : gmap (list N) (list (list Z))
}.

Definition path_exists (fs : filesystem) (p : path) : bool :=
  bool_decide (p ∈ dirs fs) || bool_decide (is_Some (files fs !! p)).

Definition isfile (fs : filesystem) (p : path) : bool :=
  bool_decide (is_Some (files fs !! p)).

Definition add_dir (p : path) (fs : filesystem) : filesystem :=
  FileSystem ({[p]} ∪ dirs fs) (files fs).

Definition create_file (p : path) (fs : filesystem) : filesystem :=
  FileSystem (dirs fs) (<[p := []]> (files fs)).

Definition append_file (p : path) (c : chunk) (fs : filesystem) : filesystem :=
  FileSystem (dirs fs) (alter (fun w => w ++ [c]) p (files fs)).

(** The description of a device that [sd.query_devices] returns; only the
    two entries the program reads. *)
Record device_info := DeviceInfo {
  name : pystr;
  hostapi : Z
}.

(** [sounddevice], as far as the program queries it. *)
Record sounddevice := SoundDevice {
  (* sd.query_devices("input") *)
  query_devices_input : result device_info;
  (* sd.query_hostapis(api)["devices"] *)
  query_hostapis : Z -> result (list Z);
  (* sd.query_devices(index, "input"); ValueError if not an input device *)
  query_devices : Z -> result device_info
}.

(** What the outside answers to the calls one statement of a thread
    makes.  An answer is read only by the statement that makes the call. *)
Record answers := Answers {
  sd : sounddevice;
  (* directory.mkdir(...) fails although no file is in the way *)
  mkdir_raises : option exn;
  (* the names tempfile draws, in order, at most TMP_MAX of them *)
  candidate_names : list pystr;
  (* sf.SoundFile(...) fails although no file is in the way *)
  create_raises : option exn;
  (* sd.InputStream(...) fails *)
  stream_raises : option exn;
  (* file.write(...) fails *)
  write_raises : option exn
}.

(** [directory.mkdir(parents=True, exist_ok=True)]: an existing directory
    is accepted, a file of that name is not. *)
Definition mkdir (a : answers) (fs : filesystem) (directory : path)
  : result filesystem :=
  if isfile fs directory then Raise (Exn FileExistsError "File exists")
  else match mkdir_raises a with
       | Some e => Raise e
       | None => Return (add_dir directory fs)
       end.

(** [tempfile.mktemp(prefix=..., suffix=..., dir=...)]: the first drawn name
    that does not exist yet; [FileExistsError] when none is usable. *)
Fixpoint mktemp (fs : filesystem) (prefix suffix dir : pystr)
    (names : list pystr) : result path :=
  match names with
  | [] => Raise (Exn FileExistsError "No usable temporary filename found")
  | name :: names' =>
      let file := join dir (prefix ++ name ++ suffix) in
      if path_exists fs file then mktemp fs prefix suffix dir names'
      else Return file
  end.

(** [sf.SoundFile(file_name, mode="x", ...)]: exclusive creation.  An
    existing file is refused by [soundfile] itself, a directory of that name
    by libsndfile. *)
Definition soundfile_create (a : answers) (fs : filesystem) (file_name : path)
  : result filesystem :=
  if isfile fs file_name then Raise (Exn OSError "File exists")
  else if path_exists fs file_name
  then Raise (Exn LibsndfileError "Error opening file: System error.")
  else match create_raises a with
       | Some e => Raise e
       | None => Return (create_file file_name fs)
       end.

End Env.

(* ===================================================================== *)
(** ** class _RecordingSession(threading.Thread)                          *)
(* ===================================================================== *)

Module Session.
Import PyStr Py Env.

(** Where the thread stands in [run], with the local variables that are
    live there. *)
Inductive thread_state :=
  | Initial                                   (* constructed, not started *)
  | Started                                   (* start() called: line 53 *)
  | DirReady (device_name : pystr) (directory : path)         (* line 61 *)
  | Named (device_name : pystr) (file_name : path)            (* line 69 *)
  | FileOpen (device_name : pystr) (file_name : path)         (* line 72 *)
  | LoopHead (file_name : path)                               (* line 79 *)
  | InGet (file_name : path)                                  (* line 81 *)
  | Finished (file_name : path)               (* line 87, run returned *)
  | Aborted (file_name : path) (e : exn)      (* line 86, run returned *)
  | Crashed (e : exn).                        (* e left run uncaught *)

(** What the thread prints. *)
Inductive message :=
  | MsgRecording (noise_name device_name : pystr)             (* line 78 *)
  | MsgException (file_name : path) (e : exn)                 (* line 85 *)
  | MsgFinished (file_name : path)                            (* line 87 *)
  | MsgStatus.                                        (* line 93, stderr *)

(** The fields [__init__] sets, the state of the thread, and what the
    thread has printed. *)
Record session := Session {
  _noise_name : pystr;
  device_index : Z;
  _recordings_dir : path;
  _exit : bool;
  _chunk_queue : list chunk;        (* oldest first *)
  thread : thread_state;
  output : list message
}.

Definition DEFAULT_RECORDINGS_DIR : path := str "./noise_recordings".

(** [__init__] *)
Definition __init__ (noise_name : pystr) (device_index : Z) : session :=
  Session noise_name device_index DEFAULT_RECORDINGS_DIR false [] Initial [].

Definition set_thread (t : thread_state) (s : session) : session :=
  Session (_noise_name s) (device_index s) (_recordings_dir s) (_exit s)
          (_chunk_queue s) t (output s).

Definition set_queue (q : list chunk) (s : session) : session :=
  Session (_noise_name s) (device_index s) (_recordings_dir s) (_exit s)
          q (thread s) (output s).

Definition print (m : message) (s : session) : session :=
  Session (_noise_name s) (device_index s) (_recordings_dir s) (_exit s)
          (_chunk_queue s) (thread s) (output s ++ [m]).

(** [stop]: only sets the flag. *)
Definition stop (s : session) : session :=
  Session (_noise_name s) (device_index s) (_recordings_dir s) true
          (_chunk_queue s) (thread s) (output s).

(** [Thread.start] *)
Definition start (s : session) : result session :=
  match thread s with
  | Initial => Return (set_thread Started s)
  | _ => Raise (Exn RuntimeError "threads can only be started once")
  end.

(** [Thread.is_alive] *)
Definition is_alive (s : session) : bool :=
  match thread s with
  | Initial | Finished _ | Aborted _ _ | Crashed _ => false
  | _ => true
  end.

(** [callback]: a non-zero status is printed, the block is copied and
    queued. *)
Definition callback (indata : chunk) (status : bool) (s : session) : session :=
  let s := if status then print MsgStatus s else s in
  set_queue (_chunk_queue s ++ [indata]) s.

(** Line 84: [except Exception as e], around lines 69-83. *)
Definition except_Exception (file_name : path) (e : exn) (s : session)
  : session :=
  if isinstance e Exception
  then set_thread (Aborted file_name e) (print (MsgException file_name e) s)
  else set_thread (Crashed e) s.

(** Line 82: [except TimeoutError: pass], around line 81; what it does not
    catch goes on to line 84. *)
Definition except_TimeoutError (file_name : path) (e : exn) (s : session)
  : session :=
  if isinstance e TimeoutError
  then set_thread (LoopHead file_name) s
  else except_Exception file_name e s.

(** The next statement of [run]. *)
Definition run_step (a : answers) (fs : filesystem) (s : session)
  : filesystem * session :=
  match thread s with
  | Started =>
      (* lines 53-59 *)
      match query_devices (sd a) (device_index s) with
      | Raise e => (fs, set_thread (Crashed e) s)
      | Return device =>
          let device_name := name device in
          let directory := join (_recordings_dir s) (mic_directory device_name) in
          match mkdir a fs directory with
          | Raise e => (fs, set_thread (Crashed e) s)
          | Return fs' => (fs', set_thread (DirReady device_name directory) s)
          end
      end
  | DirReady device_name directory =>
      (* lines 61-66 *)
      match mktemp fs (_noise_name s ++ underscore) (str ".flac") directory
                   (candidate_names a) with
      | Raise e => (fs, set_thread (Crashed e) s)
      | Return file_name => (fs, set_thread (Named device_name file_name) s)
      end
  | Named device_name file_name =>
      (* lines 69-71 *)
      match soundfile_create a fs file_name with
      | Raise e => (fs, except_Exception file_name e s)
      | Return fs' => (fs', set_thread (FileOpen device_name file_name) s)
      end
  | FileOpen device_name file_name =>
      (* lines 72-78 *)
      match stream_raises a with
      | Some e => (fs, except_Exception file_name e s)
      | None => (fs, set_thread (LoopHead file_name)
                       (print (MsgRecording (_noise_name s) device_name) s))
      end
  | LoopHead file_name =>
      (* line 79, and line 87 when the loop is left *)
      if _exit s
      then (fs, set_thread (Finished file_name) (print (MsgFinished file_name) s))
      else (fs, set_thread (InGet file_name) s)
  | InGet file_name =>
      (* line 81, a chunk is there *)
      match _chunk_queue s with
      | [] => (fs, s)
      | c :: q =>
          let s := set_queue q s in
          match write_raises a with
          | Some e => (fs, except_TimeoutError file_name e s)
          | None => (append_file file_name c fs, set_thread (LoopHead file_name) s)
          end
      end
  | Initial | Finished _ | Aborted _ _ | Crashed _ => (fs, s)
  end.

(** Line 81 when no chunk arrives for 3 seconds: [Queue.get] raises
    [queue.Empty]. *)
Definition get_timeout (fs : filesystem) (s : session) : filesystem * session :=
  match thread s, _chunk_queue s with
  | InGet file_name, [] =>
      (fs, except_TimeoutError file_name (Exn queue_Empty "") s)
  | _, _ => (fs, s)
  end.

(** What happens to a session without anybody calling its methods: its
    thread runs, and the audio library delivers blocks. *)
Inductive activity :=
  | Run (a : answers)
  | GetTimeout
  | Callback (indata : chunk) (status : bool).

Definition act (v : activity) (fs : filesystem) (s : session)
  : filesystem * session :=
  match v with
  | Run a => run_step a fs s
  | GetTimeout => get_timeout fs s
  | Callback indata status => (fs, callback indata status s)
  end.

(** A schedule of one session: its own activity, interleaved with the
    calls of [stop] by another thread. *)
Inductive action :=
  | Activity (v : activity)
  | StopRequest.

Definition step (x : action) (w : filesystem * session) : filesystem * session :=
  match x with
  | Activity v => act v (fst w) (snd w)
  | StopRequest => (fst w, stop (snd w))
  end.

Definition execute (sched : list action) (w : filesystem * session)
  : filesystem * session :=
  foldl (fun w x => step x w) w sched.

(** The blocks the audio library delivered during a schedule, in order. *)
Definition delivered (sched : list action) : list chunk :=
  omap (fun x => match x with
                 | Activity (Callback indata _) => Some indata
                 | _ => None
                 end) sched.

(** The blocks delivered before [stop] was first called. *)
Fixpoint delivered_before_stop (sched : list action) : list chunk :=
  match sched with
  | [] => []
  | StopRequest :: _ => []
  | Activity (Callback indata _) :: sched' => indata :: delivered_before_stop sched'
  | Activity _ :: sched' => delivered_before_stop sched'
  end.

(** The block an action brings. *)
Definition brought (x : action) : list chunk :=
  match x with
  | Activity (Callback indata _) => [indata]
  | _ => []
  end.

(** The chunks in an output file. *)
Definition written (fs : filesystem) (file_name : path) : list chunk :=
  default [] (files fs !! file_name).

(** The output file of a session that has created it and has not failed. *)
Definition output_file (s : session) : option path :=
  match thread s with
  | FileOpen _ f | LoopHead f | InGet f | Finished f => Some f
  | _ => None
  end.

(** No [file.write] of the schedule raises a [TimeoutError], the one
    exception after which the loop goes on. *)
Definition write_keeps_chunk (x : action) : Prop :=
  match x with
  | Activity (Run a) =>
      match write_raises a with
      | Some e => isinstance e TimeoutError = false
      | None => True
      end
  | _ => True
  end.

(** The blocks delivered so far are those written followed by those
    queued, as long as the session has not failed. *)
Definition conserves (d : list chunk) (w : filesystem * session) : Prop :=
  match thread w.2 with
  | FileOpen _ f | LoopHead f | InGet f | Finished f =>
      is_Some (files w.1 !! f) /\ written w.1 f ++ _chunk_queue w.2 = d
  | Aborted _ _ | Crashed _ => True
  | Initial | Started | DirReady _ _ | Named _ _ => _chunk_queue w.2 = d
  end.

(** The loop is left in good order only with the flag set. *)
Definition finished_on_request (s : session) : Prop :=
  match thread s with
  | Finished _ => _exit s = true
  | _ => True
  end.

(** The writer loop as the specification words it: when it has ended, the
    stop flag is set, every block queued before [stop] was called is in the
    file, and the file holds delivered blocks in their order. *)
Definition drains_before_leaving (sched : list action)
    (w0 : filesystem * session) : Prop :=
  let w := execute sched w0 in
  forall f, thread w.2 = Finished f ->
    _exit w.2 = true
    /\ delivered_before_stop sched `prefix_of` written w.1 f
    /\ written w.1 f `prefix_of` delivered sched.

(** An empty-queue timeout as the specification words it: with the flag
    not set, the loop goes back to its head. *)
Definition timeout_goes_on (fs : filesystem) (s : session) : Prop :=
  forall f, thread s = InGet f -> _chunk_queue s = [] -> _exit s = false ->
    get_timeout fs s = (fs, set_thread (LoopHead f) s).

End Session.

(* ===================================================================== *)
(** ** input_devices and class Recorder                                   *)
(* ===================================================================== *)

Module Recorder.
Import PyStr Py Env.

(** The calls the recorder makes to [sounddevice] and to its threads. *)
Inductive call :=
  | QueryInput                 (* sd.query_devices("input") *)
  | QueryHostapis (api : Z)           (* sd.query_hostapis(api) *)
  | QueryDevices (index : Z)          (* sd.query_devices(index, "input") *)
  | ThreadStart (id : nat)            (* session.start() *)
  | ThreadJoin (id : nat).            (* session.join(timeout=1) *)

(** What a generator does, in order: calls, and values it yields. *)
Inductive gen_item :=
  | Asks (c : call)
  | Yields (index : Z) (device : device_info).

(** The loop of [input_devices] over the device indices of the host API. *)
Fixpoint input_devices_from (sd : sounddevice) (indices : list Z)
  : list gen_item * option exn :=
  match indices with
  | [] => ([], None)
  | index :: indices' =>
      match query_devices sd index with
      | Return device =>
          let (items, raised) := input_devices_from sd indices' in
          (Asks (QueryDevices index) :: Yields index device :: items, raised)
      | Raise e =>
          if isinstance e ValueError
          then (* Not an input device *)
            let (items, raised) := input_devices_from sd indices' in
            (Asks (QueryDevices index) :: items, raised)
          else ([Asks (QueryDevices index)], Some e)
      end
  end.

(** [input_devices()]: what the generator does until it is exhausted, and
    the exception that ends it if one does. *)
Definition input_devices (sd : sounddevice) : list gen_item * option exn :=
  match query_devices_input sd with
  | Raise e => ([Asks QueryInput], Some e)
  | Return device =>
      let default_api := hostapi device in
      match query_hostapis sd default_api with
      | Raise e => ([Asks QueryInput; Asks (QueryHostapis default_api)], Some e)
      | Return indices =>
          let (items, raised) := input_devices_from sd indices in
          (Asks QueryInput :: Asks (QueryHostapis default_api) :: items,
           raised)
      end
  end.

(** The devices a generator run yields. *)
Definition yielded (items : list gen_item) : list (Z * device_info) :=
  omap (fun i => match i with
                 | Yields index device => Some (index, device)
                 | Asks _ => None
                 end) items.

(** The state of the program and of what it acts on.  A
    [_RecordingSession] object is known by its position in [sessions], the
    list of all the objects created so far; [_recording_threads] holds
    references to them.  The lock is not modelled: [record], [recording] and
    [stop] each run under it from their first to their last statement. *)
Record state := State {
  fs : filesystem;
  sessions : list Session.session;
  _recording_threads : list nat;
  calls : list call
}.

(** [__init__], in a given file system. *)
Definition __init__ (fs : filesystem) : state := State fs [] [] [].

Definition log (c : call) (st : state) : state :=
  State (fs st) (sessions st) (_recording_threads st) (calls st ++ [c]).

Definition set_recording_threads (l : list nat) (st : state) : state :=
  State (fs st) (sessions st) l (calls st).

Definition set_session (id : nat) (s : Session.session) (st : state) : state :=
  State (fs st) (<[id := s]> (sessions st)) (_recording_threads st) (calls st).

(** [_RecordingSession(noise_name, index)]: the new object and its
    reference. *)
Definition new_session (noise_name : pystr) (index : Z) (st : state)
  : nat * state :=
  (length (sessions st),
   State (fs st) (sessions st ++ [Session.__init__ noise_name index])
         (_recording_threads st) (calls st)).

(** [session.start()] *)
Definition start_session (id : nat) (st : state) : result unit * state :=
  match sessions st !! id with
  | Some s =>
      match Session.start s with
      | Return s' => (Return tt, set_session id s' (log (ThreadStart id) st))
      | Raise e => (Raise e, st)
      end
  | None => (Raise (Exn RuntimeError "no such object"), st)
  end.

(** Lines 130-133: the [for] loop of [record] over the generator. *)
Fixpoint for_each_device (noise_name : pystr) (items : list gen_item)
    (st : state) : result unit * state :=
  match items with
  | [] => (Return tt, st)
  | Asks c :: items' => for_each_device noise_name items' (log c st)
  | Yields index device :: items' =>
      let (session, st) := new_session noise_name index st in
      let st := set_recording_threads (_recording_threads st ++ [session]) st in
      match start_session session st with
      | (Return _, st) => for_each_device noise_name items' st
      | (Raise e, st) => (Raise e, st)
      end
  end.

(** [record] *)
Definition record (sd : sounddevice) (noise_name : pystr) (st : state)
  : result unit * state :=
  match _recording_threads st with
  | _ :: _ =>
      (Raise (Exn RuntimeError
                "Already recording. Please `stop` the previous recording first."),
       st)
  | [] =>
      let (items, raised) := input_devices sd in
      match for_each_device noise_name items st with
      | (Return _, st) =>
          match raised with
          | Some e => (Raise e, st)
          | None => (Return tt, st)
          end
      | (Raise e, st) => (Raise e, st)
      end
  end.

(** [recording] *)
Definition recording (st : state) : bool :=
  match _recording_threads st with
  | [] => false
  | _ :: _ => true
  end.

(** Something happens to the session [id]. *)
Definition happen (ev : nat * Session.activity) (st : state) : state :=
  match sessions st !! ev.1 with
  | Some s =>
      let (fs', s') := Session.act ev.2 (fs st) s in
      State fs' (<[ev.1 := s']> (sessions st)) (_recording_threads st) (calls st)
  | None => st
  end.

(** What the sessions do while the program waits or does something else. *)
Abbreviation schedule := (list (nat * Session.activity)) (only parsing).

Definition meanwhile (sched : schedule) (st : state) : state :=
  foldl (fun st ev => happen ev st) st sched.

(** Line 144: [session.stop()] *)
Definition stop_session (id : nat) (st : state) : state :=
  match sessions st !! id with
  | Some s => set_session id (Session.stop s) st
  | None => st
  end.

(** Line 146: [session.join(timeout=1)].  The caller waits while the
    sessions go on as [sched] says; whether the thread has ended by then is
    not reported to the caller.  [Thread.join] refuses a thread that was
    never started. *)
Definition join (id : nat) (sched : schedule) (st : state)
  : result unit * state :=
  match Session.thread <$> sessions st !! id with
  | Some Session.Initial | None =>
      (Raise (Exn RuntimeError "cannot join thread before it is started"), st)
  | Some _ => (Return tt, meanwhile sched (log (ThreadJoin id) st))
  end.

(** Lines 145-146; the n-th join waits through the n-th schedule. *)
Fixpoint join_all (ids : list nat) (during : list schedule) (st : state)
  : result unit * state :=
  match ids with
  | [] => (Return tt, st)
  | id :: ids' =>
      match join id (hd [] during) st with
      | (Return _, st) => join_all ids' (tl during) st
      | (Raise e, st) => (Raise e, st)
      end
  end.

(** [stop] *)
Definition stop (during : list schedule) (st : state) : result unit * state :=
  let st := foldl (fun st id => stop_session id st) st (_recording_threads st) in
  match join_all (_recording_threads st) during st with
  | (Return _, st) => (Return tt, set_recording_threads [] st)
  | (Raise e, st) => (Raise e, st)
  end.

(** The attributes of a [Recorder] object: the methods of the class and the
    two fields [__init__] sets.  Of the methods, [stop] is the one that can
    be called without argument for its effect. *)
Inductive attribute :=
  | Method0 (body : list schedule -> state -> result unit * state)
  | OtherAttribute.

Definition other_attributes : list string :=
  ["__init__"; "record"; "recording"; "__del__"; "_recording_threads";
   "_lock"]%string.

Definition getattr (name : string) : result attribute :=
  if String.eqb name "stop" then Return (Method0 stop)
  else if existsb (String.eqb name) other_attributes then Return OtherAttribute
  else Raise (Exn AttributeError
                ("'Recorder' object has no attribute '" ++ name ++ "'")).

(** [self.<name>()] without argument.  The class makes one call of this
    shape, in [__del__]; a call of an attribute other than [stop] does not
    occur in it. *)
Definition call_attribute (name : string) (during : list schedule) (st : state)
  : result unit * state :=
  match getattr name with
  | Raise e => (Raise e, st)
  | Return (Method0 body) => body during st
  | Return OtherAttribute => (Raise (Exn TypeError "not callable without argument"), st)
  end.

(** [__del__]: [self._stop()] inside [try: ... except: pass].  A bare
    [except] catches every exception. *)
Definition __del__ (during : list schedule) (st : state) : result unit * state :=
  match call_attribute "_stop" during st with
  | (Return _, st) => (Return tt, st)
  | (Raise e, st) =>
      if isinstance e BaseException then (Return tt, st) else (Raise e, st)
  end.

(** The calls of a client, and what happens between them. *)
Inductive api_call :=
  | Start (sd : sounddevice) (noise_name : pystr)
  | Stop (during : list schedule)
  | Meanwhile (sched : schedule).

Definition exec (c : api_call) (st : state) : result unit * state :=
  match c with
  | Start sd noise_name => record sd noise_name st
  | Stop during => stop during st
  | Meanwhile sched => (Return tt, meanwhile sched st)
  end.

Definition run_calls (cs : list api_call) (st : state) : state :=
  foldl (fun st c => (exec c st).2) st cs.

Definition thread_started (t : Session.thread_state) : bool :=
  match t with
  | Session.Initial => false
  | _ => true
  end.

(** The session [id] exists and its thread has been started. *)
Definition started (st : state) (id : nat) : bool :=
  match Session.thread <$> sessions st !! id with
  | Some Session.Initial | None => false
  | Some _ => true
  end.

(** Every session the recorder holds has been started. *)
Definition all_started (st : state) : bool :=
  forallb (started st) (_recording_threads st).

(** What does not touch [_recording_threads] nor the number of sessions, and
    starts no thread. *)
Record same_threads (st st' : state) : Prop := SameThreads {
  same_recording_threads : _recording_threads st' = _recording_threads st;
  same_length : length (sessions st') = length (sessions st);
  same_started : forall id, started st' id = started st id
}.

(** What [Thread.join] raises for a thread that was never started. *)
Definition join_error : exn :=
  Exn RuntimeError "cannot join thread before it is started".

(** The body of the loop of [record], lines 131-133: the new session is
    the last of [sessions], started, and its reference the last of
    [_recording_threads]. *)
Definition with_session (noise_name : pystr) (index : Z) (st : state) : state :=
  State (fs st)
        (sessions st
         ++ [Session.set_thread Session.Started (Session.__init__ noise_name index)])
        (_recording_threads st ++ [length (sessions st)])
        (calls st ++ [ThreadStart (length (sessions st))]).

(** The thread of the session [id] has ended, or was never started. *)
Definition ended (st : state) (id : nat) : bool :=
  match sessions st !! id with
  | Some s => negb (Session.is_alive s)
  | None => true
  end.

Definition is_stop (c : api_call) : bool :=
  match c with
  | Stop _ => true
  | _ => false
  end.

(** [recording()] over a history of calls as the specification words it:
    true exactly when some [Start] of the history returned without
    exception and no [Stop] was called after it. *)
Definition recording_iff_start_returned (fs0 : filesystem)
    (cs : list api_call) : Prop :=
  recording (run_calls cs (__init__ fs0)) = true <->
  exists pre sd noise_name post,
    cs = pre ++ Start sd noise_name :: post
    /\ (exec (Start sd noise_name) (run_calls pre (__init__ fs0))).1 = Return tt
    /\ forallb (fun c => negb (is_stop c)) post = true.

(** Some [Start] of the history created a session, and no [Stop] came
    after it. *)
Definition session_started_since_stop (fs0 : filesystem)
    (cs : list api_call) : Prop :=
  exists pre sd noise_name post,
    cs = pre ++ Start sd noise_name :: post
    /\ length (sessions (run_calls pre (__init__ fs0)))
       < length (sessions (run_calls (pre ++ [Start sd noise_name])
                             (__init__ fs0)))
    /\ forallb (fun c => negb (is_stop c)) post = true.

(** [recording()] over a history with "started a session" in the place of
    "returned". *)
Definition recording_iff_session_started (fs0 : filesystem)
    (cs : list api_call) : Prop :=
  recording (run_calls cs (__init__ fs0)) = true <->
  session_started_since_stop fs0 cs.

(** The teardown as the specification words it: the sequence of [stop]. *)
Definition del_stops (during : list schedule) (st : state) : Prop :=
  __del__ during st = (Return tt, (stop during st).2).

End Recorder.

(* ===================================================================== *)
(** ** A machine with two microphones                                     *)
(* ===================================================================== *)

Module Scenario.
Import PyStr Py Env Session.

Definition usb_mic : device_info := DeviceInfo (str "USB Mic #1") 0.
Definition builtin_mic : device_info := DeviceInfo (str "Built-in Mic") 0.

(** Host API 0 with the devices 0 and 1, both microphones, and 2, an
    output. *)
Definition two_mics : sounddevice :=
  SoundDevice (Return usb_mic)
    (fun api => Return [0; 1; 2]%Z)
    (fun index => if (index =? 0)%Z then Return usb_mic
                  else if (index =? 1)%Z then Return builtin_mic
                  else Raise (Exn ValueError "Not an input device")).

(** Host API 0 without any device index. *)
Definition no_mics : sounddevice :=
  SoundDevice (Return usb_mic)
    (fun api => Return [])
    (fun index => Raise (Exn ValueError "Not an input device")).

(** Host API 0 with a microphone, device 0, and a device 1 for which the
    query fails with an error of PortAudio. *)
Definition flaky_mics : sounddevice :=
  SoundDevice (Return usb_mic)
    (fun api => Return [0; 1]%Z)
    (fun index => if (index =? 0)%Z then Return usb_mic
                  else Raise (Exn PortAudioError "Error querying device 1")).

(** Host API 0 with one microphone under two indices, as when the default
    input and the device it points to are both listed. *)
Definition aliased_mics : sounddevice :=
  SoundDevice (Return usb_mic)
    (fun api => Return [0; 1]%Z)
    (fun index => Return usb_mic).

(** Nothing fails, and [tempfile] draws [k3x9q2ab]. *)
Definition all_well (sd : sounddevice) : answers :=
  Answers sd None [str "k3x9q2ab"] None None None.

Definition quiet : answers := all_well two_mics.

Definition no_files : filesystem := FileSystem ∅ ∅.

Definition beep_file : path :=
  str "./noise_recordings/USB_Mic_1/beep_k3x9q2ab.flac".

(** A session for the first microphone, just started. *)
Definition beep : session := set_thread Started (__init__ (str "beep") 0).

(** The thread goes from its start into [get]: lines 53 to 81. *)
Definition to_get : list action := repeat (Activity (Run quiet)) 5.

(** Two blocks arrive, [stop] is called, the thread writes one block and
    leaves the loop. *)
Definition stop_with_two_queued : list action :=
  to_get ++ [Activity (Callback [1; 2]%Z false);
             Activity (Callback [3; 4]%Z false);
             StopRequest;
             Activity (Run quiet); Activity (Run quiet)].

(** No block arrives for 3 seconds. *)
Definition silence : list action := to_get ++ [Activity GetTimeout].

(** A second session of the same name and device, for which [tempfile]
    drew the same name before the first created its file. *)
Definition beep_named : session :=
  set_thread (Named (str "USB Mic #1") beep_file) beep.

Definition beep_recorded : filesystem :=
  (execute stop_with_two_queued (no_files, beep)).1.

(** [Recorder().record("beep")] on the machine with two microphones. *)
Definition recording_beep : Recorder.state :=
  (Recorder.record two_mics (str "beep") (Recorder.__init__ no_files)).2.

(** Both threads go into [get] and wait there for a block. *)
Definition both_go_waiting : list (nat * activity) :=
  repeat (0, Run quiet) 5 ++ repeat (1, Run quiet) 5.

Definition waiting_beep : Recorder.state :=
  Recorder.meanwhile both_go_waiting recording_beep.

(** No block arrives for 3 seconds. *)
Definition both_fall_silent : list (nat * activity) :=
  both_go_waiting ++ [(0, GetTimeout); (1, GetTimeout)].

(** Two sessions for one microphone; [tempfile] draws the same name for
    both before either creates its file. *)
Definition same_name_drawn_twice : list (nat * activity) :=
  flat_map (fun line => [(0, line); (1, line)])
    [Run (all_well aliased_mics);      (* both: lines 53-59 *)
     Run (all_well aliased_mics);      (* both: lines 61-66 *)
     Run (all_well aliased_mics)].     (* both: line 69 *)

(** Nothing happens during the two joins of [stop], of one second each: the
    threads are still waiting in [get] when the joins time out. *)
Definition nothing_arrives : list (list (nat * activity)) := [[]; []].

(** Three blocks are queued when [stop] is called on the thread waiting
    in [get]. *)
Definition stopped_with_three_queued : filesystem * session :=
  execute (to_get ++ [Activity (Callback [1]%Z false);
                      Activity (Callback [2]%Z false);
                      Activity (Callback [3]%Z false);
                      StopRequest])
          (no_files, beep).

(** Three blocks arrive while the thread is at the head of its loop. *)
Definition three_queued : filesystem * session :=
  execute (repeat (Activity (Run quiet)) 4
           ++ [Activity (Callback [1]%Z false);
               Activity (Callback [2]%Z false);
               Activity (Callback [3]%Z false)])
          (no_files, beep).

(** The session after [silence]: its thread has ended by [queue.Empty]. *)
Definition fallen_silent : filesystem * session :=
  execute silence (no_files, beep).

(** A block arrives, the thread is scheduled, [stop] is called, time
    passes. *)
Definition afterwards : list action :=
  [Activity (Callback [5; 6]%Z false); Activity (Run quiet); StopRequest;
   Activity GetTimeout].

End Scenario.

(* ===================================================================== *)
(** ** The script: [if __name__ == "__main__"]                            *)
(* ===================================================================== *)

Module Main.
Import PyStr Py Env Recorder.

(** One [time.sleep(0.1)]: the sessions go on meanwhile, and the sleep may
    be ended by an exception, as by [KeyboardInterrupt]. *)
Record nap := Nap {
  nap_sched : list (nat * Session.activity);
  nap_raises : option exn
}.

(** How the [while] loop of lines 163-164 goes on over the given naps. *)
Inductive loop_outcome :=
  | LoopDone (st : state)               (* [recording()] was false *)
  | LoopRaised (e : exn) (st : state)   (* a nap raised [e] *)
  | LoopGoesOn (st : state).            (* still looping after the naps *)

Fixpoint while_recording (naps : list nap) (st : state) : loop_outcome :=
  if recording st then
    match naps with
    | [] => LoopGoesOn st
    | n :: naps' =>
        let st := meanwhile (nap_sched n) st in
        match nap_raises n with
        | Some e => LoopRaised e st
        | None => while_recording naps' st
        end
    end
  else LoopDone st.

(** How the script goes on. *)
Inductive outcome :=
  | Ended (st : state)                  (* the script ran to its end *)
  | Raised (e : exn) (st : state)       (* [e] left the script *)
  | Polling (st : state).               (* still looping after the naps *)

(** Lines 160-170.  [during] is what the sessions do while [stop] joins
    them.  The handler of line 165 is a bare [except]; it calls [stop],
    passes over what [stop] raises, and raises again what it caught. *)
Definition main (fs0 : filesystem) (sd : sounddevice) (naps : list nap)
    (during : list (list (nat * Session.activity))) : outcome :=
  let recorder := __init__ fs0 in
  match record sd (str "test_noise") recorder with
  | (Raise e, recorder) => Raised e recorder
  | (Return _, recorder) =>
      match while_recording naps recorder with
      | LoopDone recorder => Ended recorder
      | LoopGoesOn recorder => Polling recorder
      | LoopRaised e recorder => Raised e (stop during recorder).2
      end
  end.

(** A nap that no exception ends. *)
Definition quiet_nap (n : nap) : bool :=
  match nap_raises n with
  | Some _ => false
  | None => true
  end.

End Main.

(* ===================================================================== *)
(** ** Invariants                                                         *)
(* ===================================================================== *)

Module Invariants.
Import PyStr Py Env.

(** A directory name as [re.sub] leaves it: letters and digits, and single
    underscores, each followed by a letter or a digit or by the end. *)
Fixpoint tidy (s : pystr) : bool :=
  match s with
  | [] => true
  | c :: r =>
      (is_alnum c
       || (c =? 95)%N && match r with
                         | d :: _ => is_alnum d
                         | [] => true
                         end)
      && tidy r
  end.

(** The file name a thread has chosen, from line 61 on. *)
Definition file_in_hand (s : Session.session) : option path :=
  match Session.thread s with
  | Session.Named _ f | Session.FileOpen _ f | Session.LoopHead f
  | Session.InGet f | Session.Finished f | Session.Aborted f _ => Some f
  | _ => None
  end.

(** The chunks a thread whose stop flag is set may still write: the one it
    is waiting for in [get]. *)
Definition chunks_to_go (s : Session.session) : nat :=
  match Session.thread s with
  | Session.InGet _ => 1
  | _ => 0
  end.

Definition is_activity (x : Session.action) : bool :=
  match x with
  | Session.Activity _ => true
  | Session.StopRequest => false
  end.

(** What a thread has printed tells how it ended. *)
Definition output_tells (s : Session.session) : Prop :=
  (forall f, Session.MsgFinished f ∈ Session.output s
             <-> Session.thread s = Session.Finished f)
  /\ (forall f e, Session.MsgException f e ∈ Session.output s
                  <-> Session.thread s = Session.Aborted f e).


End Invariants.

(* ===================================================================== *)
(** * Properties                                                          *)
(* ===================================================================== *)

(** Case analysis on whatever the goal still matches on. *)
Ltac split_cases :=
  repeat (simpl;
          match goal with
          | |- context [match ?x with _ => _ end] =>
              lazymatch x with
              | context [match _ with _ => _ end] => fail
              | _ => destruct x eqn:?
              end
          end);
  simpl in *; auto; try congruence.

(** ** The directory name of a device *)

Section DirectoryName.
Import PyStr.

Lemma non_alnum_class_spec c :
  class_matches non_alnum_class c = negb (is_alnum c).
Proof.
  unfold class_matches, non_alnum_class, is_alnum, in_range; simpl.
  rewrite orb_false_r, <- orb_assoc. reflexivity.
Qed.

Lemma head_kind_cons_run b c rs : head_kind (cons_run b c rs) = b.
Proof.
  destruct rs as [|[b' run] rs]; simpl; [reflexivity|].
  destruct (Bool.eqb b b') eqn:E; simpl; [|reflexivity].
  symmetry. now apply eqb_prop.
Qed.

Lemma collapsed_cons_run b c rs :
  collapsed (cons_run b c rs) =
  if b then (if head_kind rs then collapsed rs else underscore ++ collapsed rs)
  else c :: collapsed rs.
Proof.
  destruct rs as [|[b' run] rs]; destruct b; simpl; try reflexivity;
    destruct b'; reflexivity.
Qed.

(** The runs are a decomposition of the name ... *)
Lemma runs_concat s : concat (map snd (runs s)) = s.
Proof.
  induction s as [|c r IH]; simpl; [reflexivity|].
  destruct (runs r) as [|[b' run] rs]; simpl in *; [now subst|].
  destruct (Bool.eqb _ b'); simpl; now rewrite <- IH.
Qed.

(** ... every run is non-empty and of one kind ... *)
Lemma runs_homogeneous s : Forall run_ok (runs s).
Proof.
  induction s as [|c r IH]; simpl; [constructor|].
  destruct (runs r) as [|[b' run] rs]; simpl.
  - repeat constructor; simpl; discriminate.
  - inversion IH as [|? ? [Hne Hall] Hrest]; subst; simpl in *.
    destruct (Bool.eqb _ b') eqn:E.
    + apply eqb_prop in E. constructor; [|assumption].
      split; simpl; [discriminate|]. constructor; assumption.
    + constructor; [|assumption].
      split; simpl; [discriminate|]. repeat constructor.
Qed.

(** ... and maximal: two neighbours are of different kinds. *)
Lemma runs_maximal s : alternating (runs s).
Proof.
  induction s as [|c r IH]; simpl; [exact I|].
  destruct (runs r) as [|[b' run] rs]; simpl; [exact I|].
  destruct (Bool.eqb _ b') eqn:E; simpl.
  - exact IH.
  - split; [|exact IH]. intros Heq. rewrite Heq, eqb_reflx in E. discriminate.
Qed.

(** After a separator the scan of [re.sub] resumes behind the run. *)
Lemma collapsed_skip c r :
  collapsed (cons_run true c (runs r)) =
  underscore ++ collapsed (runs (skip_class non_alnum_class r)).
Proof.
  revert c; induction r as [|d r IH]; intros c; [reflexivity|].
  rewrite collapsed_cons_run. simpl runs. rewrite head_kind_cons_run.
  simpl skip_class. rewrite non_alnum_class_spec.
  destruct (negb (is_alnum d)) eqn:E; [apply IH | simpl runs; now rewrite E].
Qed.

Lemma re_sub_collapses s :
  re_sub_class_plus non_alnum_class underscore s = collapsed (runs s).
Proof.
  funelim (re_sub_class_plus non_alnum_class underscore s);
    try reflexivity; simpl runs;
    rewrite non_alnum_class_spec in Heq; rewrite Heq.
  - rewrite collapsed_skip. f_equal. assumption.
  - rewrite collapsed_cons_run. f_equal. assumption.
Qed.

Lemma take_all_when_short {A} (n : nat) (l : list A) :
  (if n <? length l then take n l else l) = take n l.
Proof.
  destruct (n <? length l) eqn:E; [reflexivity|].
  apply Nat.ltb_ge in E. symmetry. now apply take_ge.
Qed.

(** C7. For every device display name, the directory name computed by
    [_RecordingSession.run] is the display name with every maximal run of
    characters outside [a-zA-Z0-9] replaced by one separator ["_"], cut to
    at most 40 characters. *)
Theorem mic_directory_collapses_runs (device_name : pystr) :
  mic_directory device_name = spec_directory_name device_name
  /\ length (mic_directory device_name) <= 40.
Proof.
  assert (E : mic_directory device_name = spec_directory_name device_name).
  { unfold mic_directory, spec_directory_name, slice_to; cbv zeta.
    rewrite take_all_when_short, re_sub_collapses. reflexivity. }
  split; [exact E|].
  rewrite E. unfold spec_directory_name. rewrite length_take. lia.
Qed.

Example mic_directory_usb :
  mic_directory (str "USB Mic #1") = str "USB_Mic_1".
Proof. reflexivity. Qed.

Example mic_directory_builtin :
  mic_directory (str "Built-in Mic") = str "Built_in_Mic".
Proof. reflexivity. Qed.

Example mic_directory_long :
  mic_directory (str "HDA Intel PCH: ALC3246 Analog (hw:0,0) -- front microphone")
  = str "HDA_Intel_PCH_ALC3246_Analog_hw_0_0_fron".
Proof. reflexivity. Qed.

End DirectoryName.

(** ** One recording session *)

Section SessionFacts.
Import PyStr Py Env Session.

Lemma written_append fs f c :
  is_Some (files fs !! f) ->
  written (append_file f c fs) f = written fs f ++ [c].
Proof.
  intros [w Hw]. unfold written, append_file; simpl.
  rewrite lookup_alter, decide_True by reflexivity. rewrite Hw. reflexivity.
Qed.

Lemma is_Some_append fs f c :
  is_Some (files fs !! f) -> is_Some (files (append_file f c fs) !! f).
Proof.
  intros [w Hw]. unfold append_file; simpl.
  rewrite lookup_alter, decide_True by reflexivity. rewrite Hw. eauto.
Qed.

Lemma written_create fs f :
  is_Some (files (create_file f fs) !! f) /\ written (create_file f fs) f = [].
Proof.
  unfold written, create_file; simpl. rewrite lookup_insert_eq. eauto.
Qed.

Lemma delivered_app sched x :
  delivered (sched ++ [x]) =
  delivered sched ++ match x with
                     | Activity (Callback indata _) => [indata]
                     | _ => []
                     end.
Proof.
  unfold delivered. rewrite omap_app. f_equal.
  destruct x as [[| |]|]; reflexivity.
Qed.

Lemma execute_app sched x w :
  execute (sched ++ [x]) w = step x (execute sched w).
Proof. unfold execute. now rewrite foldl_app. Qed.

Lemma callback_conserves d indata status fs s :
  conserves d (fs, s) ->
  conserves (d ++ [indata]) (fs, callback indata status s).
Proof.
  unfold conserves, callback; intros H.
  destruct status; simpl in *; destruct (thread s); simpl in *;
    try exact I; try (now subst d);
    destruct H as [Hf Hd]; subst d; (split; [exact Hf | now rewrite app_assoc]).
Qed.

Lemma stop_conserves d fs s :
  conserves d (fs, s) -> conserves d (fs, stop s).
Proof. unfold conserves; simpl. destruct (thread s); auto. Qed.

Lemma except_Exception_conserves d fs f e s :
  conserves d (fs, except_Exception f e s).
Proof.
  unfold except_Exception. destruct (isinstance e Exception); exact I.
Qed.

Lemma run_step_conserves d a fs s :
  write_keeps_chunk (Activity (Run a)) ->
  conserves d (fs, s) -> conserves d (run_step a fs s).
Proof.
  unfold run_step. intros Hw H.
  unfold conserves in H; simpl in H.
  destruct (thread s) eqn:Ht; try (unfold conserves; simpl; rewrite Ht; exact H).
  - (* Started *)
    destruct (query_devices (sd a) (device_index s)); [|exact I].
    destruct (mkdir a fs _); [exact H | exact I].
  - (* DirReady *)
    destruct (mktemp _ _ _ _ _); [exact H | exact I].
  - (* Named *)
    unfold soundfile_create.
    destruct (isfile fs file_name); [apply except_Exception_conserves|].
    destruct (path_exists fs file_name); [apply except_Exception_conserves|].
    destruct (create_raises a); [apply except_Exception_conserves|].
    unfold conserves; simpl.
    destruct (written_create fs file_name) as [Hs Hw0].
    split; [exact Hs | now rewrite Hw0].
  - (* FileOpen *)
    destruct (stream_raises a); [apply except_Exception_conserves | exact H].
  - (* LoopHead *)
    destruct (_exit s); exact H.
  - (* InGet *)
    destruct H as [Hf Hd].
    destruct (_chunk_queue s) as [|c q] eqn:Hq.
    + unfold conserves; simpl. rewrite Ht, Hq. now split.
    + simpl in Hw. destruct (write_raises a) as [e|].
      * unfold except_TimeoutError. rewrite Hw.
        apply except_Exception_conserves.
      * unfold conserves; simpl. split; [now apply is_Some_append|].
        rewrite written_append by exact Hf.
        now rewrite <- app_assoc.
Qed.

Lemma get_timeout_conserves d fs s :
  conserves d (fs, s) -> conserves d (get_timeout fs s).
Proof.
  unfold get_timeout. intros H.
  destruct (thread s) eqn:Ht; try exact H.
  destruct (_chunk_queue s) eqn:Hq; [|exact H].
  unfold except_TimeoutError.
  destruct (isinstance _ TimeoutError) eqn:Hi; [discriminate Hi|].
  apply except_Exception_conserves.
Qed.

Lemma step_conserves d x w :
  write_keeps_chunk x -> conserves d w -> conserves (d ++ brought x) (step x w).
Proof.
  destruct w as [fs s]. intros Hw H.
  destruct x as [[a| |indata status]|]; simpl;
    rewrite ?app_nil_r.
  - now apply run_step_conserves.
  - now apply get_timeout_conserves.
  - now apply callback_conserves.
  - now apply stop_conserves.
Qed.

Lemma execute_conserves sched w :
  Forall write_keeps_chunk sched ->
  conserves [] w -> conserves (delivered sched) (execute sched w).
Proof.
  induction sched as [|x sched IH] using rev_ind; intros Hall H; [exact H|].
  apply Forall_app in Hall as [Hall Hx].
  rewrite execute_app, delivered_app.
  apply step_conserves; [now inversion Hx | now apply IH].
Qed.

Lemma step_finished_on_request x w :
  finished_on_request w.2 -> finished_on_request (step x w).2.
Proof.
  destruct w as [fs s]. unfold finished_on_request.
  destruct x as [[a| |indata status]|]; simpl;
    unfold run_step, get_timeout, callback, except_TimeoutError,
      except_Exception;
    intros H; destruct (thread s) eqn:Ht; split_cases.
Qed.

Lemma execute_finished_on_request sched w :
  finished_on_request w.2 -> finished_on_request (execute sched w).2.
Proof.
  induction sched as [|x sched IH] using rev_ind; intros H; [exact H|].
  rewrite execute_app. apply step_finished_on_request. now apply IH.
Qed.

(** C4, as the code has it. The writer loop ends in good order only once
    the stop flag is set, whether or not blocks are still queued. As long as
    the session has not failed and no write timed out, the blocks in the
    output file followed by the blocks still queued are the delivered blocks
    in their order: the file holds a prefix of what was delivered, nothing
    twice and nothing out of order, and what is missing from it is what is
    still in the queue. *)
Theorem written_then_queued_is_delivered
    (sched : list action) (fs : filesystem) (s0 : session) (f : path) :
  thread s0 = Started ->
  _chunk_queue s0 = [] ->
  Forall write_keeps_chunk sched ->
  output_file (execute sched (fs, s0)).2 = Some f ->
  written (execute sched (fs, s0)).1 f ++ _chunk_queue (execute sched (fs, s0)).2
    = delivered sched
  /\ written (execute sched (fs, s0)).1 f `prefix_of` delivered sched
  /\ (thread (execute sched (fs, s0)).2 = Finished f ->
      _exit (execute sched (fs, s0)).2 = true).
Proof.
  intros Ht Hq Hall Hf.
  assert (Hc : conserves (delivered sched) (execute sched (fs, s0))).
  { apply execute_conserves; [exact Hall|].
    unfold conserves; simpl. now rewrite Ht. }
  assert (Hr : finished_on_request (execute sched (fs, s0)).2).
  { apply execute_finished_on_request. unfold finished_on_request; simpl.
    now rewrite Ht. }
  assert (Hd : written (execute sched (fs, s0)).1 f
               ++ _chunk_queue (execute sched (fs, s0)).2 = delivered sched).
  { unfold conserves, output_file in *.
    destruct (thread (execute sched (fs, s0)).2); try discriminate Hf;
      injection Hf as ->; apply Hc. }
  split; [exact Hd|]. split.
  - rewrite <- Hd. now apply prefix_app_r.
  - intros Hfin. unfold finished_on_request in Hr. now rewrite Hfin in Hr.
Qed.

Lemma written_then_queued_is_delivered_witness :
  written (execute Scenario.stop_with_two_queued
             (Scenario.no_files, Scenario.beep)).1 Scenario.beep_file
  ++ _chunk_queue (execute Scenario.stop_with_two_queued
                     (Scenario.no_files, Scenario.beep)).2
    = delivered Scenario.stop_with_two_queued
  /\ written (execute Scenario.stop_with_two_queued
                (Scenario.no_files, Scenario.beep)).1 Scenario.beep_file
     `prefix_of` delivered Scenario.stop_with_two_queued
  /\ (thread (execute Scenario.stop_with_two_queued
                (Scenario.no_files, Scenario.beep)).2
        = Finished Scenario.beep_file ->
      _exit (execute Scenario.stop_with_two_queued
               (Scenario.no_files, Scenario.beep)).2 = true).
Proof.
  apply written_then_queued_is_delivered.
  - reflexivity.
  - reflexivity.
  - repeat constructor.
  - vm_compute. reflexivity.
Defined.

(** C4, as the specification has it, fails: two blocks are queued when
    [stop] is called; the thread writes the first, finds the flag set and
    leaves the loop with the second still in the queue. *)
Lemma stop_leaves_queued_block_unwritten :
  ~ drains_before_leaving Scenario.stop_with_two_queued
      (Scenario.no_files, Scenario.beep).
Proof.
  intros H. destruct (H Scenario.beep_file) as (_ & Hp & _).
  - vm_compute. reflexivity.
  - apply prefix_length in Hp. vm_compute in Hp. lia.
Qed.

Lemma get_timeout_raises_Empty fs s f :
  thread s = InGet f -> _chunk_queue s = [] ->
  get_timeout fs s =
  (fs, set_thread (Aborted f (Exn queue_Empty ""))
         (print (MsgException f (Exn queue_Empty "")) s)).
Proof. intros Ht Hq. unfold get_timeout. rewrite Ht, Hq. reflexivity. Qed.

(** C5 fails on the code. The thread of a session whose stop flag is not
    set waits in [get] and no block arrives: [Queue.get] raises
    [queue.Empty], which is no [TimeoutError], so line 82 does not catch it;
    line 84 does, and the thread prints the exception and ends. *)
Theorem empty_queue_timeout_ends_thread :
  let w := execute Scenario.to_get (Scenario.no_files, Scenario.beep) in
  thread w.2 = InGet Scenario.beep_file
  /\ _chunk_queue w.2 = []
  /\ _exit w.2 = false
  /\ isinstance (Exn queue_Empty "") TimeoutError = false
  /\ thread (get_timeout w.1 w.2).2
     = Aborted Scenario.beep_file (Exn queue_Empty "")
  /\ is_alive (get_timeout w.1 w.2).2 = false
  /\ ~ timeout_goes_on w.1 w.2.
Proof.
  cbv zeta. repeat split; try (vm_compute; reflexivity).
  intros H.
  pose proof (H Scenario.beep_file eq_refl eq_refl eq_refl) as E.
  apply (f_equal (fun w => thread w.2)) in E.
  vm_compute in E. discriminate E.
Qed.

Lemma step_after_abort x fs s f e :
  thread s = Aborted f e ->
  (step x (fs, s)).1 = fs /\ thread (step x (fs, s)).2 = Aborted f e.
Proof.
  intros Ht.
  destruct x as [[a| |indata status]|]; simpl;
    unfold run_step, get_timeout, callback; rewrite ?Ht; simpl; auto.
  destruct status; simpl; auto.
Qed.

Lemma execute_after_abort sched fs s f e :
  thread s = Aborted f e ->
  (execute sched (fs, s)).1 = fs
  /\ thread (execute sched (fs, s)).2 = Aborted f e.
Proof.
  intros Ht. induction sched as [|x sched [IH1 IH2]] using rev_ind; [now split|].
  rewrite execute_app.
  destruct (execute sched (fs, s)) as [fs' s']; simpl in *. subst fs'.
  now apply step_after_abort.
Qed.

(** C8. A thread about to create its output file (line 69) while a file or
    directory of that name exists: the creation raises, line 84 catches the
    exception, the thread prints it and ends; the file system is as it was,
    and stays so whatever happens to the session afterwards. *)
Theorem existing_file_is_not_overwritten
    (a : answers) (fs : filesystem) (s : session)
    (device_name : pystr) (file_name : path) :
  thread s = Named device_name file_name ->
  path_exists fs file_name = true ->
  exists e,
    isinstance e Exception = true
    /\ run_step a fs s
       = (fs, set_thread (Aborted file_name e)
                (print (MsgException file_name e) s))
    /\ forall sched, (execute sched (run_step a fs s)).1 = fs.
Proof.
  intros Ht Hex.
  assert (Hc : exists e, isinstance e Exception = true
                         /\ soundfile_create a fs file_name = Raise e).
  { unfold soundfile_create. rewrite Hex.
    destruct (isfile fs file_name); eexists; split; try reflexivity;
      reflexivity. }
  destruct Hc as (e & He & Hc). exists e.
  assert (Hr : run_step a fs s
               = (fs, set_thread (Aborted file_name e)
                        (print (MsgException file_name e) s))).
  { unfold run_step. rewrite Ht, Hc. unfold except_Exception.
    now rewrite He. }
  split; [exact He|]. split; [exact Hr|].
  intros sched. rewrite Hr.
  now apply (execute_after_abort sched fs _ file_name e).
Qed.

Lemma existing_file_is_not_overwritten_witness :
  exists e,
    isinstance e Exception = true
    /\ run_step Scenario.quiet Scenario.beep_recorded Scenario.beep_named
       = (Scenario.beep_recorded,
          set_thread (Aborted Scenario.beep_file e)
            (print (MsgException Scenario.beep_file e) Scenario.beep_named))
    /\ forall sched,
         (execute sched
            (run_step Scenario.quiet Scenario.beep_recorded
               Scenario.beep_named)).1
         = Scenario.beep_recorded.
Proof.
  apply (existing_file_is_not_overwritten Scenario.quiet
           Scenario.beep_recorded Scenario.beep_named
           (str "USB Mic #1") Scenario.beep_file).
  - reflexivity.
  - vm_compute. reflexivity.
Defined.

End SessionFacts.

(** ** The recorder *)

Section RecorderFacts.
Import PyStr Py Env Recorder.

Lemma same_threads_refl st : same_threads st st.
Proof. now split. Qed.

Lemma same_threads_trans st1 st2 st3 :
  same_threads st1 st2 -> same_threads st2 st3 -> same_threads st1 st3.
Proof.
  intros [H1 H2 H3] [K1 K2 K3]. split.
  - now rewrite K1.
  - now rewrite K2.
  - intros id. now rewrite K3.
Qed.

Lemma forallb_same {A} (f g : A -> bool) (l : list A) :
  (forall x, f x = g x) -> forallb f l = forallb g l.
Proof.
  intros H. induction l as [|x l IH]; simpl; [reflexivity|].
  now rewrite H, IH.
Qed.

Lemma same_threads_all_started st st' :
  same_threads st st' -> all_started st' = all_started st.
Proof.
  intros [H1 _ H3]. unfold all_started. rewrite H1.
  apply forallb_same. exact H3.
Qed.

Lemma started_lookup st id :
  started st id =
  match sessions st !! id with
  | Some s => thread_started (Session.thread s)
  | None => false
  end.
Proof.
  unfold started. destruct (sessions st !! id) as [s|]; simpl; [|reflexivity].
  now destruct (Session.thread s).
Qed.

Lemma act_thread_started v fs s :
  thread_started (Session.thread (Session.act v fs s).2)
  = thread_started (Session.thread s).
Proof.
  destruct v as [a| |indata status]; simpl;
    unfold Session.run_step, Session.get_timeout, Session.callback,
      Session.except_TimeoutError, Session.except_Exception;
    destruct (Session.thread s) eqn:Ht; split_cases;
    try (rewrite Ht; reflexivity).
Qed.

(** Replacing a session by one whose thread is as far started changes
    nothing for [same_threads]. *)
Lemma same_threads_replace st fs' id s s' cs :
  sessions st !! id = Some s ->
  thread_started (Session.thread s') = thread_started (Session.thread s) ->
  same_threads st
    (State fs' (<[id := s']> (sessions st)) (_recording_threads st) cs).
Proof.
  intros Hs Ht. split; simpl; [reflexivity | apply length_insert |].
  intros id'. rewrite !started_lookup; simpl.
  destruct (decide (id = id')) as [<-|Hne].
  - rewrite list_lookup_insert_eq by (now apply lookup_lt_Some in Hs).
    now rewrite Hs.
  - now rewrite list_lookup_insert_ne.
Qed.

Lemma happen_same_threads ev st : same_threads st (happen ev st).
Proof.
  unfold happen. destruct (sessions st !! ev.1) as [s|] eqn:Hs;
    [|apply same_threads_refl].
  pose proof (act_thread_started ev.2 (fs st) s) as Ht.
  destruct (Session.act ev.2 (fs st) s) as [fs' s'].
  now apply same_threads_replace with s.
Qed.

Lemma meanwhile_app sched ev st :
  meanwhile (sched ++ [ev]) st = happen ev (meanwhile sched st).
Proof. unfold meanwhile. now rewrite foldl_app. Qed.

Lemma meanwhile_same_threads sched st : same_threads st (meanwhile sched st).
Proof.
  induction sched as [|ev sched IH] using rev_ind; [apply same_threads_refl|].
  rewrite meanwhile_app.
  eapply same_threads_trans; [exact IH | apply happen_same_threads].
Qed.

Lemma log_same_threads c st : same_threads st (log c st).
Proof. now split. Qed.

Lemma stop_session_same_threads id st : same_threads st (stop_session id st).
Proof.
  unfold stop_session. destruct (sessions st !! id) as [s|] eqn:Hs;
    [|apply same_threads_refl].
  unfold set_session. now apply same_threads_replace with s.
Qed.

Lemma stop_sessions_same_threads ids st :
  same_threads st (foldl (fun st id => stop_session id st) st ids).
Proof.
  revert st. induction ids as [|id ids IH]; intros st; simpl;
    [apply same_threads_refl|].
  eapply same_threads_trans; [apply stop_session_same_threads | apply IH].
Qed.

Lemma join_spec id sched st :
  same_threads st (join id sched st).2
  /\ (join id sched st).1
     = if started st id then Return tt else Raise join_error.
Proof.
  unfold join, started.
  destruct (Session.thread <$> sessions st !! id) as [[]|]; simpl;
    try (split; [apply same_threads_refl | reflexivity]);
    (split; [|reflexivity]);
    (eapply same_threads_trans;
     [apply log_same_threads | apply meanwhile_same_threads]).
Qed.

Lemma join_all_spec ids during st :
  same_threads st (join_all ids during st).2
  /\ (join_all ids during st).1
     = if forallb (started st) ids then Return tt else Raise join_error.
Proof.
  revert during st. induction ids as [|id ids IH]; intros during st; simpl.
  - split; [apply same_threads_refl | reflexivity].
  - destruct (join_spec id (hd [] during) st) as [Hs Hr].
    destruct (join id (hd [] during) st) as [[[]|e] st1]; simpl in *.
    + destruct (started st id); [|discriminate Hr]. simpl.
      destruct (IH (tl during) st1) as [Hs' Hr']. split.
      * eapply same_threads_trans; eassumption.
      * rewrite Hr'. rewrite (forallb_same (started st1) (started st));
          [reflexivity | apply Hs].
    + destruct (started st id); [discriminate Hr|]. simpl.
      split; [exact Hs | exact Hr].
Qed.

(** What [stop] does, in every state: it returns when every session of
    [_recording_threads] was started, with the list emptied; it raises
    otherwise, with the list as it was. *)
Lemma stop_spec during st :
  (forall id, started (stop during st).2 id = started st id)
  /\ length (sessions (stop during st).2) = length (sessions st)
  /\ if all_started st
     then (stop during st).1 = Return tt
          /\ _recording_threads (stop during st).2 = []
     else (stop during st).1 = Raise join_error
          /\ _recording_threads (stop during st).2 = _recording_threads st.
Proof.
  unfold stop.
  pose proof (stop_sessions_same_threads (_recording_threads st) st) as H1.
  set (st1 := foldl _ st (_recording_threads st)) in *.
  destruct (join_all_spec (_recording_threads st1) during st1) as [H2 Hr].
  pose proof (same_threads_trans _ _ _ H1 H2) as H12.
  assert (Ha : forallb (started st1) (_recording_threads st1) = all_started st).
  { apply (same_threads_all_started _ _ H1). }
  rewrite Ha in Hr.
  destruct (join_all (_recording_threads st1) during st1) as [[[]|e] st2];
    simpl in *; destruct (all_started st); try discriminate Hr.
  - destruct H12 as [K1 K2 K3]. repeat split; assumption.
  - destruct H12 as [K1 K2 K3]. repeat split; assumption.
Qed.

Lemma loop_body noise_name index st :
  start_session (length (sessions st))
    (set_recording_threads (_recording_threads st ++ [length (sessions st)])
       (new_session noise_name index st).2)
  = (Return tt, with_session noise_name index st).
Proof.
  unfold start_session, new_session, set_recording_threads; simpl.
  rewrite lookup_app_r, Nat.sub_diag by reflexivity. simpl.
  unfold set_session, log, with_session; simpl. do 2 f_equal.
  rewrite <- (Nat.add_0_r (length (sessions st))) at 1.
  now rewrite insert_app_r.
Qed.

Lemma for_each_device_cons_yields noise_name index device items st :
  for_each_device noise_name (Yields index device :: items) st
  = for_each_device noise_name items (with_session noise_name index st).
Proof.
  simpl. change (length (sessions st)) with (new_session noise_name index st).1.
  destruct (new_session noise_name index st) as [id st1] eqn:E.
  unfold new_session in E. injection E as <- <-.
  pose proof (loop_body noise_name index st) as Hb.
  unfold new_session in Hb; simpl in Hb. simpl. now rewrite Hb.
Qed.

(** The loop of [record] never raises; it adds one started session for
    each device the generator yields, and touches no other. *)
Lemma for_each_device_spec noise_name items st :
  let r := for_each_device noise_name items st in
  r.1 = Return tt
  /\ fs r.2 = fs st
  /\ sessions r.2
     = sessions st
       ++ map (fun d => Session.set_thread Session.Started
                          (Session.__init__ noise_name d.1))
              (yielded items)
  /\ _recording_threads r.2
     = _recording_threads st
       ++ seq (length (sessions st)) (length (yielded items)).
Proof.
  revert st. induction items as [|[c|index device] items IH]; intros st.
  - simpl. now rewrite !app_nil_r.
  - simpl. apply (IH (log c st)).
  - cbv zeta. rewrite for_each_device_cons_yields.
    destruct (IH (with_session noise_name index st)) as (H1 & H2 & H3 & H4).
    split; [exact H1|]. split; [exact H2|].
    unfold yielded in *; simpl omap; simpl length; simpl map.
    rewrite H3, H4. unfold with_session; simpl.
    rewrite length_app, Nat.add_1_r, <- !app_assoc. now split.
Qed.

(** [record] on a recorder that holds no session. *)
Lemma record_idle_spec sd noise_name st :
  _recording_threads st = [] ->
  let r := record sd noise_name st in
  r.1 = match (input_devices sd).2 with
        | Some e => Raise e
        | None => Return tt
        end
  /\ fs r.2 = fs st
  /\ sessions r.2
     = sessions st
       ++ map (fun d => Session.set_thread Session.Started
                          (Session.__init__ noise_name d.1))
              (yielded (input_devices sd).1)
  /\ _recording_threads r.2
     = seq (length (sessions st)) (length (yielded (input_devices sd).1)).
Proof.
  intros Hidle. unfold record. rewrite Hidle.
  destruct (input_devices sd) as [items raised]; simpl.
  destruct (for_each_device_spec noise_name items st) as (H1 & H2 & H3 & H4).
  rewrite Hidle in H4.
  destruct (for_each_device noise_name items st) as [[[]|e] st1];
    simpl in *; [|discriminate H1].
  destruct raised; simpl; auto.
Qed.

Lemma record_busy sd noise_name st :
  _recording_threads st <> [] ->
  record sd noise_name st
  = (Raise (Exn RuntimeError
              "Already recording. Please `stop` the previous recording first."),
     st).
Proof.
  intros Hbusy. unfold record.
  destruct (_recording_threads st); [contradiction | reflexivity].
Qed.

Lemma recording_true st : recording st = true <-> _recording_threads st <> [].
Proof. unfold recording. destruct (_recording_threads st); split; congruence. Qed.

Lemma recording_false st : recording st = false <-> _recording_threads st = [].
Proof. unfold recording. destruct (_recording_threads st); split; congruence. Qed.

(** Every session [record] leaves in [_recording_threads] is started. *)
Lemma record_all_started sd noise_name st :
  all_started st = true -> all_started (record sd noise_name st).2 = true.
Proof.
  intros Hall. destruct (_recording_threads st) as [|id ids] eqn:Hth.
  - destruct (record_idle_spec sd noise_name st Hth) as (_ & _ & Hs & Ht).
    unfold all_started. rewrite Ht. apply forallb_forall.
    intros id Hin. apply in_seq in Hin.
    rewrite started_lookup, Hs.
    rewrite lookup_app_r by lia. rewrite list_lookup_fmap.
    destruct (yielded (input_devices sd).1 !! (id - length (sessions st)))
      as [d|] eqn:Hd; [reflexivity|].
    apply lookup_ge_None in Hd. lia.
  - rewrite record_busy by (rewrite Hth; discriminate). exact Hall.
Qed.

Lemma exec_all_started c st :
  all_started st = true -> all_started (exec c st).2 = true.
Proof.
  intros Hall. destruct c as [sd noise_name|during|sched]; simpl.
  - now apply record_all_started.
  - destruct (stop_spec during st) as (_ & _ & H). rewrite Hall in H.
    unfold all_started. now rewrite (proj2 H).
  - now rewrite (same_threads_all_started _ _ (meanwhile_same_threads sched st)).
Qed.

Lemma run_calls_app cs c st :
  run_calls (cs ++ [c]) st = (exec c (run_calls cs st)).2.
Proof. unfold run_calls. now rewrite foldl_app. Qed.

(** Between the creation of the recorder and any later moment, every
    session in [_recording_threads] has been started: [stop] returns. *)
Lemma run_calls_all_started cs fs0 :
  all_started (run_calls cs (__init__ fs0)) = true.
Proof.
  induction cs as [|c cs IH] using rev_ind; [reflexivity|].
  rewrite run_calls_app. now apply exec_all_started.
Qed.

Lemma session_started_since_stop_snoc fs0 cs c :
  session_started_since_stop fs0 (cs ++ [c]) <->
  (is_stop c = false /\ session_started_since_stop fs0 cs)
  \/ (exists sd noise_name,
        c = Start sd noise_name
        /\ length (sessions (run_calls cs (__init__ fs0)))
           < length (sessions (run_calls (cs ++ [c]) (__init__ fs0)))).
Proof.
  split.
  - intros (pre & sd & noise_name & post & Hcs & Hlen & Hpost).
    destruct post as [|c' post _] using rev_ind.
    + apply app_inj_tail in Hcs as [-> ->]. right. eauto.
    + rewrite app_comm_cons, app_assoc in Hcs.
      apply app_inj_tail in Hcs as [-> ->].
      rewrite forallb_app in Hpost. apply andb_prop in Hpost as [Hpost Hc].
      simpl in Hc. rewrite andb_true_r in Hc. apply negb_true_iff in Hc.
      left. split; [exact Hc|]. exists pre, sd, noise_name, post. auto.
  - intros [[Hc (pre & sd & noise_name & post & -> & Hlen & Hpost)]
           |(sd & noise_name & -> & Hlen)].
    + exists pre, sd, noise_name, (post ++ [c]).
      rewrite <- app_assoc. split; [reflexivity|]. split; [exact Hlen|].
      rewrite forallb_app, Hpost. simpl. now rewrite Hc.
    + exists cs, sd, noise_name, []. auto.
Qed.

(** C2, as the code has it. Over every history of calls of [record] and
    [stop] on a new recorder, with the sessions running in between,
    [recording()] is true exactly when some call of [record] has started
    at least one session and [stop] has not been called since. *)
Theorem recording_iff_session_started_and_not_stopped
    (fs0 : filesystem) (cs : list api_call) :
  recording_iff_session_started fs0 cs.
Proof.
  unfold recording_iff_session_started.
  induction cs as [|c cs IH] using rev_ind.
  - split; [discriminate|].
    intros (pre & sd & noise_name & post & Hcs & _).
    now destruct pre.
  - rewrite session_started_since_stop_snoc, <- IH.
    rewrite !run_calls_app.
    pose proof (run_calls_all_started cs fs0) as Hall.
    set (st := run_calls cs (__init__ fs0)) in *.
    destruct c as [sd noise_name|during|sched]; simpl.
    + destruct (recording st) eqn:Hrec.
      * rewrite record_busy by now apply recording_true.
        simpl. rewrite Hrec. tauto.
      * apply recording_false in Hrec.
        destruct (record_idle_spec sd noise_name st Hrec) as (_ & _ & Hs & Ht).
        rewrite recording_true, Ht, Hs, length_app, length_map.
        destruct (yielded (input_devices sd).1); simpl; split.
        -- congruence.
        -- intros [[_ H]|(? & ? & _ & H)]; [discriminate H | lia].
        -- intros _. right. exists sd, noise_name. split; [reflexivity | lia].
        -- discriminate.
    + destruct (stop_spec during st) as (_ & _ & H). rewrite Hall in H.
      destruct H as [_ H]. unfold recording. rewrite H. split; [discriminate|].
      intros [[H' _]|(? & ? & H' & _)]; discriminate H'.
    + destruct (meanwhile_same_threads sched st) as [H _ _].
      unfold recording. rewrite H. split; [auto|].
      intros [[_ H']|(? & ? & H' & _)]; [exact H' | discriminate H'].
Qed.

(** C2, as the specification has it, fails: on a machine without input
    device [record] returns without exception and without a session, and
    [recording()] is false. *)
Lemma record_without_device_is_not_recording :
  ~ recording_iff_start_returned Scenario.no_files
      [Start Scenario.no_mics (str "test_noise")].
Proof.
  intros [_ H].
  assert (Hrec : recording
                   (run_calls [Start Scenario.no_mics (str "test_noise")]
                      (__init__ Scenario.no_files)) = true).
  { apply H. exists [], Scenario.no_mics, (str "test_noise"), [].
    repeat split. }
  vm_compute in Hrec. discriminate Hrec.
Qed.

(** C1. In every state in which [_recording_threads] is not empty, [record]
    raises the "Already recording" error and leaves the state as it was:
    no query went to [sounddevice], no session was created or started, and
    [_recording_threads] holds the sessions it held. *)
Theorem record_while_recording_raises
    (sd : sounddevice) (noise_name : pystr) (st : state) :
  _recording_threads st <> [] ->
  (record sd noise_name st).1
  = Raise (Exn RuntimeError
             "Already recording. Please `stop` the previous recording first.")
  /\ (record sd noise_name st).2 = st
  /\ calls (record sd noise_name st).2 = calls st
  /\ sessions (record sd noise_name st).2 = sessions st
  /\ _recording_threads (record sd noise_name st).2 = _recording_threads st.
Proof.
  intros Hbusy. rewrite record_busy by exact Hbusy. simpl. repeat split.
Qed.

Lemma record_while_recording_raises_witness :
  _recording_threads Scenario.recording_beep = [0; 1]
  /\ (record Scenario.two_mics (str "hiss") Scenario.recording_beep).1
     = Raise (Exn RuntimeError
                "Already recording. Please `stop` the previous recording first.")
  /\ (record Scenario.two_mics (str "hiss") Scenario.recording_beep).2
     = Scenario.recording_beep.
Proof.
  split; [reflexivity|].
  destruct (record_while_recording_raises Scenario.two_mics (str "hiss")
              Scenario.recording_beep) as (H1 & H2 & _).
  - discriminate.
  - split; [exact H1 | exact H2].
Defined.

Lemma stop_returns_only_emptied during st st' :
  stop during st = (Return tt, st') ->
  _recording_threads st' = [] /\ recording st' = false.
Proof.
  intros Hstop. destruct (stop_spec during st) as (_ & _ & H).
  rewrite Hstop in H; simpl in H.
  destruct (all_started st); destruct H as [Hr Ht]; [|discriminate Hr].
  split; [exact Ht | now apply recording_false].
Qed.

Lemma stop_returns during st :
  all_started st = true -> exists st', stop during st = (Return tt, st').
Proof.
  intros Hall. destruct (stop_spec during st) as (_ & _ & H).
  rewrite Hall in H. destruct H as [Hr _].
  destruct (stop during st) as [r st']; simpl in Hr. subst r. eauto.
Qed.

(** C3. In every state, and whatever the sessions do while [stop] waits
    for them, once [stop] has returned [_recording_threads] is empty and
    [recording()] is false; whether a thread ended within its timeout plays
    no part. And [stop] does return whenever every session it holds has been
    started, which is so in every state that calls of [record] and [stop]
    lead to. *)
Theorem stop_empties_recording_threads
    (during : list (list (nat * Session.activity))) (st : state) :
  (forall st', stop during st = (Return tt, st') ->
               _recording_threads st' = [] /\ recording st' = false)
  /\ (all_started st = true ->
      exists st', stop during st = (Return tt, st')
                  /\ _recording_threads st' = [] /\ recording st' = false).
Proof.
  split; [apply stop_returns_only_emptied|].
  intros Hall. destruct (stop_returns during st Hall) as [st' Hstop].
  exists st'. split; [exact Hstop|].
  now apply (stop_returns_only_emptied during st).
Qed.

(** Neither thread has ended when the joins of [stop] time out; both
    sessions are dropped all the same. *)
Lemma stop_empties_recording_threads_witness :
  all_started Scenario.waiting_beep = true
  /\ (exists st',
        stop Scenario.nothing_arrives Scenario.waiting_beep = (Return tt, st')
        /\ _recording_threads st' = [] /\ recording st' = false)
  /\ (_recording_threads
        (stop Scenario.nothing_arrives Scenario.waiting_beep).2 = []
      /\ recording (stop Scenario.nothing_arrives Scenario.waiting_beep).2
         = false)
  /\ Session.is_alive
     <$> sessions (stop Scenario.nothing_arrives Scenario.waiting_beep).2
     = [true; true].
Proof.
  split; [vm_compute; reflexivity|]. split; [|split].
  - apply (stop_empties_recording_threads Scenario.nothing_arrives
             Scenario.waiting_beep).
    vm_compute. reflexivity.
  - apply (stop_empties_recording_threads Scenario.nothing_arrives
             Scenario.waiting_beep).
    vm_compute. reflexivity.
  - vm_compute. reflexivity.
Defined.

Lemma stop_idle during st :
  _recording_threads st = [] -> stop during st = (Return tt, st).
Proof.
  intros Hidle. unfold stop. rewrite Hidle. simpl. rewrite Hidle. simpl.
  destruct st; simpl in *. now subst.
Qed.

(** C9. [stop] on a recorder that holds no session returns without
    exception and changes nothing. In every state, a second [stop] after a
    first ends as the first did and leaves [_recording_threads] as the first
    left it; after a first [stop] that returned, the second changes nothing
    at all. *)
Theorem stop_twice_is_stop_once
    (during1 during2 : list (list (nat * Session.activity))) (st : state) :
  (_recording_threads st = [] -> stop during1 st = (Return tt, st))
  /\ _recording_threads (stop during2 (stop during1 st).2).2
     = _recording_threads (stop during1 st).2
  /\ (stop during2 (stop during1 st).2).1 = (stop during1 st).1
  /\ ((stop during1 st).1 = Return tt ->
      stop during2 (stop during1 st).2 = stop during1 st).
Proof.
  split; [apply stop_idle|].
  destruct (stop_spec during1 st) as (Hs1 & _ & H1).
  destruct (stop_spec during2 (stop during1 st).2) as (_ & _ & H2).
  destruct (all_started st) eqn:Hall.
  - destruct H1 as [Hr1 Ht1].
    pose proof (stop_idle during2 _ Ht1) as Hidle.
    rewrite Hidle. simpl.
    split; [reflexivity|]. split; [now rewrite Hr1|].
    intros _. destruct (stop during1 st) as [r1 st1]; simpl in *. now subst r1.
  - destruct H1 as [Hr1 Ht1].
    assert (Hall2 : all_started (stop during1 st).2 = false).
    { unfold all_started in *. rewrite Ht1.
      now rewrite (forallb_same _ (started st)) by exact Hs1. }
    rewrite Hall2 in H2. destruct H2 as [Hr2 Ht2].
    rewrite Ht2, Hr2, Hr1.
    split; [reflexivity|]. split; [reflexivity | discriminate].
Qed.

Lemma stop_twice_is_stop_once_witness :
  stop [] (__init__ Scenario.no_files) = (Return tt, __init__ Scenario.no_files)
  /\ stop [] (stop Scenario.nothing_arrives Scenario.waiting_beep).2
     = stop Scenario.nothing_arrives Scenario.waiting_beep.
Proof.
  split.
  - apply (stop_twice_is_stop_once [] [] (__init__ Scenario.no_files)).
    reflexivity.
  - apply (stop_twice_is_stop_once Scenario.nothing_arrives []
             Scenario.waiting_beep).
    vm_compute. reflexivity.
Defined.

(** C10. Whatever the threads and the audio library do, no session leaves
    [_recording_threads]: when the recorder was recording and every thread
    has ended, by an exception or at the end of [run], [recording()] is
    still true. *)
Theorem ended_sessions_stay_in_recording_threads
    (sched : list (nat * Session.activity)) (st : state) :
  _recording_threads (meanwhile sched st) = _recording_threads st
  /\ (recording st = true ->
      forallb (ended (meanwhile sched st))
              (_recording_threads (meanwhile sched st)) = true ->
      recording (meanwhile sched st) = true).
Proof.
  destruct (meanwhile_same_threads sched st) as [H _ _].
  split; [exact H|]. intros Hrec _. unfold recording in *. now rewrite H.
Qed.

Lemma ended_sessions_stay_in_recording_threads_witness :
  recording Scenario.recording_beep = true
  /\ forallb (ended (meanwhile Scenario.both_fall_silent Scenario.recording_beep))
       (_recording_threads
          (meanwhile Scenario.both_fall_silent Scenario.recording_beep))
     = true
  /\ recording (meanwhile Scenario.both_fall_silent Scenario.recording_beep)
     = true.
Proof.
  assert (H1 : recording Scenario.recording_beep = true) by reflexivity.
  assert (H2 : forallb
                 (ended (meanwhile Scenario.both_fall_silent
                           Scenario.recording_beep))
                 (_recording_threads
                    (meanwhile Scenario.both_fall_silent
                       Scenario.recording_beep)) = true)
    by (vm_compute; reflexivity).
  split; [exact H1|]. split; [exact H2|].
  exact (proj2 (ended_sessions_stay_in_recording_threads
                  Scenario.both_fall_silent Scenario.recording_beep) H1 H2).
Defined.

Lemma del_raises_AttributeError during st :
  call_attribute "_stop" during st
  = (Raise (Exn AttributeError "'Recorder' object has no attribute '_stop'"), st)
  /\ __del__ during st = (Return tt, st).
Proof. split; reflexivity. Qed.

(** C6 fails on the code, in its first half. [__del__] calls [self._stop],
    which no [Recorder] has: the [AttributeError] is caught by the bare
    [except], so nothing leaves the destructor, but no session is asked to
    stop, none is joined, and [_recording_threads] keeps its sessions. *)
Theorem del_does_not_stop_sessions :
  recording Scenario.waiting_beep = true
  /\ __del__ Scenario.nothing_arrives Scenario.waiting_beep
     = (Return tt, Scenario.waiting_beep)
  /\ Session._exit <$> sessions Scenario.waiting_beep = [false; false]
  /\ Session._exit
     <$> sessions (stop Scenario.nothing_arrives Scenario.waiting_beep).2
     = [true; true]
  /\ ~ del_stops Scenario.nothing_arrives Scenario.waiting_beep.
Proof.
  repeat split; try (vm_compute; reflexivity).
  unfold del_stops. intros H.
  apply (f_equal (fun r => _recording_threads r.2)) in H.
  vm_compute in H. discriminate H.
Qed.

(** An exception of the generator other than [ValueError] ends [record]
    after the sessions of the devices yielded before it were started. *)
Example record_interrupted_is_recording :
  (record Scenario.flaky_mics (str "beep") (__init__ Scenario.no_files)).1
  = Raise (Exn PortAudioError "Error querying device 1")
  /\ recording
       (record Scenario.flaky_mics (str "beep") (__init__ Scenario.no_files)).2
     = true.
Proof. split; reflexivity. Qed.

(** The second of two sessions that drew the same file name ends at line
    69; the file is the first session's. *)
Example second_session_of_a_name_ends :
  Session.thread
  <$> sessions (meanwhile Scenario.same_name_drawn_twice
                  (record Scenario.aliased_mics (str "beep")
                     (__init__ Scenario.no_files)).2)
  = [Session.FileOpen (str "USB Mic #1") Scenario.beep_file;
     Session.Aborted Scenario.beep_file (Exn OSError "File exists")].
Proof. vm_compute. reflexivity. Qed.

(** Two microphones: two sessions, in two directories. *)
Example record_two_mics :
  _recording_threads Scenario.recording_beep = [0; 1]
  /\ calls Scenario.recording_beep
     = [QueryInput; QueryHostapis 0; QueryDevices 0; ThreadStart 0;
        QueryDevices 1; ThreadStart 1; QueryDevices 2]
  /\ Session.thread <$> sessions Scenario.waiting_beep
     = [Session.InGet (str "./noise_recordings/USB_Mic_1/beep_k3x9q2ab.flac");
        Session.InGet (str "./noise_recordings/Built_in_Mic/beep_k3x9q2ab.flac")].
Proof. repeat split; vm_compute; reflexivity. Qed.

End RecorderFacts.

(** ** More on the directory name *)

Section DirectoryNameMore.
Import PyStr Invariants.

Lemma re_sub_cons k repl c r :
  re_sub_class_plus k repl (c :: r)
  = if class_matches k c
    then repl ++ re_sub_class_plus k repl (skip_class k r)
    else c :: re_sub_class_plus k repl r.
Proof. simp re_sub_class_plus. destruct (class_matches k c); reflexivity. Qed.

Lemma skip_class_head k r :
  match skip_class k r with
  | [] => True
  | d :: _ => class_matches k d = false
  end.
Proof.
  induction r as [|c r IH]; simpl; [exact I|].
  destruct (class_matches k c) eqn:E; [exact IH | exact E].
Qed.

Lemma underscore_not_alnum : is_alnum 95 = false.
Proof. reflexivity. Qed.

Lemma re_sub_tidy s : tidy (re_sub_class_plus non_alnum_class underscore s) = true.
Proof.
  funelim (re_sub_class_plus non_alnum_class underscore s); [reflexivity| |].
  - (* a run: one underscore, then what follows the run *)
    simpl. rewrite H. rewrite andb_true_r.
    pose proof (skip_class_head non_alnum_class r) as Hh.
    destruct (skip_class non_alnum_class r) as [|d r']; [reflexivity|].
    rewrite re_sub_cons, Hh. rewrite non_alnum_class_spec in Hh.
    apply negb_false_iff in Hh. now rewrite Hh.
  - simpl. rewrite non_alnum_class_spec in Heq. apply negb_false_iff in Heq.
    now rewrite Heq, H.
Qed.

Lemma re_sub_of_tidy s :
  tidy s = true -> re_sub_class_plus non_alnum_class underscore s = s.
Proof.
  induction s as [|c r IH]; [reflexivity|]. simpl. intros Ht.
  apply andb_prop in Ht as [Hc Hr]. rewrite re_sub_cons, non_alnum_class_spec.
  destruct (is_alnum c) eqn:Ec; simpl in *.
  - now rewrite IH.
  - apply andb_prop in Hc as [Hu Hn]. apply N.eqb_eq in Hu. subst c.
    destruct r as [|d r']; [reflexivity|].
    simpl skip_class. rewrite non_alnum_class_spec, Hn. simpl.
    now rewrite IH.
Qed.

Lemma tidy_take n s : tidy s = true -> tidy (take n s) = true.
Proof.
  revert n. induction s as [|c r IH]; intros [|n] Ht; try reflexivity.
  simpl in *. apply andb_prop in Ht as [Hc Hr]. rewrite IH by exact Hr.
  rewrite andb_true_r.
  destruct (is_alnum c); [reflexivity|]. simpl in *.
  apply andb_prop in Hc as [Hu Hn]. rewrite Hu. simpl.
  destruct r as [|d r']; [now destruct n|]. now destruct n.
Qed.

Lemma mic_directory_take device_name :
  mic_directory device_name
  = take 40 (re_sub_class_plus non_alnum_class underscore device_name).
Proof. unfold mic_directory, slice_to; cbv zeta. apply take_all_when_short. Qed.

Lemma tidy_chars s :
  tidy s = true -> Forall (fun c => is_alnum c = true \/ c = 95%N) s.
Proof.
  induction s as [|c r IH]; [constructor|]. simpl. intros Ht.
  apply andb_prop in Ht as [Hc Hr]. constructor; [|now apply IH].
  destruct (is_alnum c); [now left|]. simpl in Hc.
  apply andb_prop in Hc as [Hu _]. right. now apply N.eqb_eq.
Qed.

Lemma mic_directory_tidy device_name : tidy (mic_directory device_name) = true.
Proof. rewrite mic_directory_take. apply tidy_take, re_sub_tidy. Qed.

(** X1. The directory name of a device holds nothing but letters, digits
    and underscores, and no two underscores in a row; neither a path
    separator nor a dot is in it. *)
Theorem mic_directory_is_tidy (device_name : pystr) :
  tidy (mic_directory device_name) = true
  /\ Forall (fun c => is_alnum c = true \/ c = 95%N) (mic_directory device_name)
  /\ (47%N ∉ mic_directory device_name)
  /\ (46%N ∉ mic_directory device_name).
Proof.
  pose proof (mic_directory_tidy device_name) as Ht.
  pose proof (tidy_chars _ Ht) as Hc.
  split; [exact Ht|]. split; [exact Hc|].
  rewrite Forall_forall in Hc.
  split; intros Hin; apply Hc in Hin as [H|H]; discriminate H.
Qed.

(** X2. The names that are their own directory name are the tidy names of
    at most 40 characters; the directory name of a directory name is
    itself. *)
Theorem mic_directory_fixed_points (s : pystr) :
  (mic_directory s = s <-> tidy s = true /\ length s <= 40)
  /\ mic_directory (mic_directory s) = mic_directory s.
Proof.
  assert (Hid : forall t : pystr,
             tidy t = true -> length t <= 40 -> mic_directory t = t).
  { intros t Ht Hl. rewrite mic_directory_take, re_sub_of_tidy by exact Ht.
    now apply take_ge. }
  assert (Hlen : forall t : pystr, length (mic_directory t) <= 40).
  { intros t. rewrite mic_directory_take, length_take. lia. }
  split.
  - split.
    + intros E. rewrite <- E. split; [apply mic_directory_tidy | apply Hlen].
    + intros [Ht Hl]. now apply Hid.
  - apply Hid; [apply mic_directory_tidy | apply Hlen].
Qed.

End DirectoryNameMore.

(** ** More on one recording session *)

Section SessionMore.
Import PyStr Py Env Session Invariants.

Ltac session_cases s :=
  unfold run_step, get_timeout, callback, except_TimeoutError,
    except_Exception, soundfile_create, mkdir;
  destruct (thread s) eqn:?; split_cases.

Lemma act_keeps_exit v fs s : _exit (act v fs s).2 = _exit s.
Proof. destruct v as [a| |indata status]; simpl; session_cases s. Qed.

Lemma step_exit_set x w : _exit w.2 = true -> _exit (step x w).2 = true.
Proof.
  destruct w as [fs s], x as [v|]; simpl; [|reflexivity].
  now rewrite act_keeps_exit.
Qed.

Lemma execute_exit_set sched w :
  _exit w.2 = true -> _exit (execute sched w).2 = true.
Proof.
  induction sched as [|x sched IH] using rev_ind; intros H; [exact H|].
  rewrite execute_app. apply step_exit_set. now apply IH.
Qed.

Lemma execute_keeps_exit sched w :
  forallb is_activity sched = true -> _exit (execute sched w).2 = _exit w.2.
Proof.
  induction sched as [|x sched IH] using rev_ind; intros H; [reflexivity|].
  rewrite forallb_app in H. apply andb_prop in H as [H Hx].
  rewrite execute_app. destruct x as [v|]; [|discriminate Hx].
  specialize (IH H).
  destruct (execute sched w) as [fs s]. simpl in *.
  now rewrite act_keeps_exit.
Qed.

(** X3. A thread leaves its loop in good order only after [stop] was
    called: as long as nobody calls [stop], whatever the thread and the
    audio library do, the session of a started thread does not reach line
    87. *)
Theorem no_finish_without_stop
    (sched : list action) (fs : filesystem) (s : session) :
  forallb is_activity sched = true ->
  _exit s = false ->
  (forall f, thread s <> Finished f) ->
  forall f, thread (execute sched (fs, s)).2 <> Finished f.
Proof.
  intros Hact Hexit Hnot f Hfin.
  pose proof (execute_keeps_exit sched (fs, s) Hact) as He. simpl in He.
  assert (Hr : finished_on_request (execute sched (fs, s)).2).
  { apply execute_finished_on_request. unfold finished_on_request; simpl.
    destruct (thread s) eqn:Ht; try exact I. now destruct (Hnot file_name). }
  unfold finished_on_request in Hr. rewrite Hfin in Hr. congruence.
Qed.

Lemma no_finish_without_stop_witness :
  _exit Scenario.beep = false
  /\ thread (execute (Scenario.to_get
                      ++ [Activity (Callback [1; 2]%Z false);
                          Activity (Run Scenario.quiet);
                          Activity (Run Scenario.quiet)])
               (Scenario.no_files, Scenario.beep)).2
     <> Finished Scenario.beep_file.
Proof.
  split; [reflexivity|].
  apply (no_finish_without_stop
           (Scenario.to_get
            ++ [Activity (Callback [1; 2]%Z false);
                Activity (Run Scenario.quiet);
                Activity (Run Scenario.quiet)])
           Scenario.no_files Scenario.beep).
  - reflexivity.
  - reflexivity.
  - intros f. discriminate.
Defined.

Lemma execute_cons x sched w : execute (x :: sched) w = execute sched (step x w).
Proof. reflexivity. Qed.

Lemma written_create_le f fs p :
  length (written (create_file f fs) p) <= length (written fs p).
Proof.
  unfold written, create_file; simpl.
  destruct (decide (f = p)) as [->|Hne].
  - rewrite lookup_insert_eq. simpl. lia.
  - now rewrite lookup_insert_ne.
Qed.

Lemma written_append_le f c fs p :
  length (written (append_file f c fs) p) <= length (written fs p) + 1.
Proof.
  unfold written, append_file; simpl. rewrite lookup_alter.
  destruct (decide (f = p)) as [->|Hne]; [|lia].
  destruct (files fs !! p); simpl; rewrite ?length_app; simpl; lia.
Qed.

Lemma step_chunks_to_go x fs s p :
  _exit s = true ->
  length (written (step x (fs, s)).1 p) + chunks_to_go (step x (fs, s)).2
  <= length (written fs p) + chunks_to_go s.
Proof.
  intros Hexit. unfold chunks_to_go.
  destruct x as [[a| |indata status]|]; simpl;
    unfold run_step, get_timeout, callback, except_TimeoutError,
      except_Exception, soundfile_create, mkdir;
    destruct (thread s) eqn:Ht; split_cases; rewrite ?Ht; try lia;
    try (pose proof (written_create_le file_name fs p); lia);
    try (pose proof (written_append_le file_name l fs p); lia).
Qed.

(** X4. Once the stop flag is set, the thread writes at most one more
    chunk, the one it gets from the queue if it is waiting in [get]; a
    thread that is elsewhere writes none. So says the docstring of [stop]:
    "this will try to wait for one more chunk before terminating". *)
Theorem at_most_one_chunk_after_stop
    (sched : list action) (fs : filesystem) (s : session) (p : path) :
  _exit s = true ->
  length (written (execute sched (fs, s)).1 p)
  <= length (written fs p) + chunks_to_go s
  /\ chunks_to_go s <= 1.
Proof.
  intros Hexit. split; [|unfold chunks_to_go; destruct (thread s); lia].
  assert (H : length (written (execute sched (fs, s)).1 p)
              + chunks_to_go (execute sched (fs, s)).2
              <= length (written fs p) + chunks_to_go s); [|lia].
  revert fs s Hexit. induction sched as [|x sched IH]; intros fs s Hexit;
    [simpl; lia|].
  rewrite execute_cons.
  pose proof (step_chunks_to_go x fs s p Hexit) as Hs.
  pose proof (step_exit_set x (fs, s) Hexit) as He.
  destruct (step x (fs, s)) as [fs1 s1]. simpl in *.
  specialize (IH fs1 s1 He). lia.
Qed.

Lemma at_most_one_chunk_after_stop_witness :
  length (written
            (execute (repeat (Activity (Run Scenario.quiet)) 4)
               (Scenario.stopped_with_three_queued.1,
                Scenario.stopped_with_three_queued.2)).1
            Scenario.beep_file)
  <= length (written Scenario.stopped_with_three_queued.1 Scenario.beep_file)
     + chunks_to_go Scenario.stopped_with_three_queued.2
  /\ chunks_to_go Scenario.stopped_with_three_queued.2 <= 1.
Proof.
  apply (at_most_one_chunk_after_stop
           (repeat (Activity (Run Scenario.quiet)) 4)
           Scenario.stopped_with_three_queued.1
           Scenario.stopped_with_three_queued.2 Scenario.beep_file).
  reflexivity.
Defined.

(** Of three blocks queued when [stop] is called, one is written. *)
Example one_of_three_written :
  written (execute (repeat (Activity (Run Scenario.quiet)) 4)
             Scenario.stopped_with_three_queued).1 Scenario.beep_file
  = [[1%Z]]
  /\ thread (execute (repeat (Activity (Run Scenario.quiet)) 4)
               Scenario.stopped_with_three_queued).2
     = Finished Scenario.beep_file.
Proof. split; vm_compute; reflexivity. Qed.

Lemma step_after_end x fs s :
  is_alive s = false ->
  (step x (fs, s)).1 = fs /\ thread (step x (fs, s)).2 = thread s.
Proof.
  unfold is_alive. intros Hd.
  destruct x as [[a| |indata status]|]; simpl;
    unfold run_step, get_timeout, callback;
    destruct (thread s) eqn:Ht; try discriminate Hd; split_cases;
    rewrite ?Ht; auto.
Qed.

(** X5. A thread that has ended, in good order or by an exception, stays
    as it ended: nothing starts it again, and the file system is never
    touched again on its behalf, whatever is delivered to it and however
    often [stop] is called. What it had written stays on disk. *)
Theorem ended_thread_stays_ended
    (sched : list action) (fs : filesystem) (s : session) :
  is_alive s = false ->
  (execute sched (fs, s)).1 = fs
  /\ thread (execute sched (fs, s)).2 = thread s.
Proof.
  intros Hd. induction sched as [|x sched [IH1 IH2]] using rev_ind;
    [now split|].
  rewrite execute_app.
  destruct (execute sched (fs, s)) as [fs' s']; simpl in *. subst fs'.
  rewrite <- IH2. apply step_after_end.
  unfold is_alive in *. now rewrite IH2.
Qed.

Lemma ended_thread_stays_ended_witness :
  (execute Scenario.afterwards
     (Scenario.fallen_silent.1, Scenario.fallen_silent.2)).1
  = Scenario.fallen_silent.1
  /\ thread (execute Scenario.afterwards
               (Scenario.fallen_silent.1, Scenario.fallen_silent.2)).2
     = thread Scenario.fallen_silent.2.
Proof.
  apply (ended_thread_stays_ended Scenario.afterwards
           Scenario.fallen_silent.1 Scenario.fallen_silent.2).
  reflexivity.
Defined.

Lemma step_touches_own_file x fs s p :
  file_in_hand s <> Some p ->
  files (step x (fs, s)).1 !! p = files fs !! p.
Proof.
  unfold file_in_hand.
  destruct x as [[a| |indata status]|]; simpl;
    unfold run_step, get_timeout, callback, except_TimeoutError,
      except_Exception, soundfile_create, mkdir;
    destruct (thread s) eqn:Ht; split_cases; intros Hp;
    try reflexivity; unfold create_file, append_file; simpl;
    try (rewrite lookup_insert_ne by congruence; reflexivity);
    try (rewrite lookup_alter_ne by congruence; reflexivity).
Qed.

Lemma step_keeps_file_in_hand x fs s f :
  file_in_hand s = Some f ->
  file_in_hand (step x (fs, s)).2 = Some f
  \/ is_alive (step x (fs, s)).2 = false.
Proof.
  unfold file_in_hand, is_alive.
  destruct x as [[a| |indata status]|]; simpl;
    unfold run_step, get_timeout, callback, except_TimeoutError,
      except_Exception, soundfile_create, mkdir;
    destruct (thread s) eqn:Ht; split_cases; rewrite ?Ht; auto;
    try (simplify_eq; auto).
Qed.

Lemma execute_touches_own_file sched fs s f p :
  file_in_hand s = Some f \/ is_alive s = false ->
  p <> f ->
  files (execute sched (fs, s)).1 !! p = files fs !! p.
Proof.
  intros Hk Hp. revert fs s Hk.
  induction sched as [|x sched IH]; intros fs s Hk; [reflexivity|].
  rewrite execute_cons.
  assert (H1 : files (step x (fs, s)).1 !! p = files fs !! p
               /\ (file_in_hand (step x (fs, s)).2 = Some f
                   \/ is_alive (step x (fs, s)).2 = false)).
  { destruct Hk as [Hin|Hd].
    - split; [|now apply step_keeps_file_in_hand].
      apply step_touches_own_file. rewrite Hin. congruence.
    - destruct (step_after_end x fs s Hd) as [E1 E2]. split.
      + now rewrite E1.
      + right. unfold is_alive in *. now rewrite E2. }
  destruct H1 as [Hf Hk1].
  destruct (step x (fs, s)) as [fs1 s1]; simpl in *.
  rewrite <- Hf. now apply IH.
Qed.

(** X6. Of the files, a session changes the one whose name its thread drew
    at line 61, and no other: from then on every other file is, after
    whatever the session did, as it was before. *)
Theorem session_touches_only_its_file
    (sched : list action) (fs : filesystem) (s : session) (f p : path) :
  file_in_hand s = Some f ->
  p <> f ->
  files (execute sched (fs, s)).1 !! p = files fs !! p.
Proof. intros Hin Hp. apply execute_touches_own_file with f; auto. Qed.

Lemma session_touches_only_its_file_witness :
  files (execute (repeat (Activity (Run Scenario.quiet)) 4)
           (Scenario.stopped_with_three_queued.1,
            Scenario.stopped_with_three_queued.2)).1
  !! str "./noise_recordings/Built_in_Mic/beep_k3x9q2ab.flac"
  = files Scenario.stopped_with_three_queued.1
    !! str "./noise_recordings/Built_in_Mic/beep_k3x9q2ab.flac".
Proof.
  apply (session_touches_only_its_file
           (repeat (Activity (Run Scenario.quiet)) 4)
           Scenario.stopped_with_three_queued.1
           Scenario.stopped_with_three_queued.2
           Scenario.beep_file).
  - reflexivity.
  - discriminate.
Defined.

Lemma step_output_tells x fs s :
  output_tells s -> output_tells (step x (fs, s)).2.
Proof.
  unfold output_tells. intros [HF HA].
  destruct x as [[a| |indata status]|]; simpl;
    unfold run_step, get_timeout, callback, except_TimeoutError,
      except_Exception, soundfile_create, mkdir;
    destruct (thread s) eqn:Ht; split_cases; rewrite ?Ht;
    (split; [intros f0; pose proof (HF f0) as H0
            | intros f0 e0; pose proof (HA f0 e0) as H0]);
    clear HF HA; set_unfold; intuition congruence.
Qed.

(** X7. What a thread has printed tells how it ended: "Recording finished"
    with a file name is in its output exactly when it left the loop in good
    order with that file, "Recording encountered an exception" exactly when
    line 84 caught that exception. A thread that failed before line 69, at
    the query of the device, at [mkdir] or at [mktemp], has printed
    neither. *)
Theorem output_tells_how_thread_ended
    (sched : list action) (fs : filesystem) (s : session) :
  thread s = Started ->
  output s = [] ->
  output_tells (execute sched (fs, s)).2
  /\ (forall e, thread (execute sched (fs, s)).2 = Crashed e ->
        forall f, (MsgFinished f ∉ output (execute sched (fs, s)).2)
                  /\ forall e', MsgException f e' ∉ output (execute sched (fs, s)).2).
Proof.
  intros Ht Ho.
  assert (H : output_tells (execute sched (fs, s)).2).
  { induction sched as [|x sched IH] using rev_ind.
    - unfold output_tells; simpl. rewrite Ht, Ho.
      split; intros; set_unfold; naive_solver.
    - rewrite execute_app.
      destruct (execute sched (fs, s)) as [fs1 s1]; simpl in *.
      now apply step_output_tells. }
  split; [exact H|]. intros e He f. destruct H as [HF HA]. split.
  - rewrite HF, He. discriminate.
  - intros e'. rewrite HA, He. discriminate.
Qed.

Lemma output_tells_how_thread_ended_witness :
  output_tells Scenario.fallen_silent.2
  /\ MsgException Scenario.beep_file (Exn queue_Empty "")
     ∈ output Scenario.fallen_silent.2.
Proof.
  destruct (output_tells_how_thread_ended Scenario.silence Scenario.no_files
              Scenario.beep eq_refl eq_refl) as [H _].
  split; [exact H|]. apply H. reflexivity.
Defined.




Lemma loop_round a fs s f c q w :
  thread s = LoopHead f -> _exit s = false -> _chunk_queue s = c :: q ->
  files fs !! f = Some w -> write_raises a = None ->
  exists s',
    execute [Activity (Run a); Activity (Run a)] (fs, s)
    = (append_file f c fs, s')
    /\ thread s' = LoopHead f /\ _exit s' = false /\ _chunk_queue s' = q.
Proof.
  intros Ht He Hq Hw Ha. unfold execute; simpl.
  unfold run_step at 2 3. rewrite Ht, He. simpl.
  unfold run_step; simpl. rewrite Hq, Ha. simpl.
  eexists. split; [reflexivity|]. now repeat split.
Qed.

(** X17. A thread that is not asked to stop catches up with the queue: from
    the head of its loop, when no write fails, two statements for each
    queued chunk take every chunk from the queue to the end of the file, in
    the order of the queue; the thread is at the head of its loop again,
    the queue empty. *)
Theorem writer_catches_up
    (a : answers) (fs : filesystem) (s : session) (f : path)
    (w : list (list Z)) :
  thread s = LoopHead f ->
  _exit s = false ->
  files fs !! f = Some w ->
  write_raises a = None ->
  files (execute (repeat (Activity (Run a)) (2 * length (_chunk_queue s)))
           (fs, s)).1 !! f
  = Some (w ++ _chunk_queue s)
  /\ _chunk_queue
       (execute (repeat (Activity (Run a)) (2 * length (_chunk_queue s)))
          (fs, s)).2 = []
  /\ thread
       (execute (repeat (Activity (Run a)) (2 * length (_chunk_queue s)))
          (fs, s)).2 = LoopHead f.
Proof.
  intros Ht He Hw Ha.
  remember (_chunk_queue s) as q eqn:Hq. symmetry in Hq.
  revert fs s w Ht He Hw Hq. induction q as [|c q IH]; intros fs s w Ht He Hw Hq.
  - simpl. rewrite app_nil_r. now repeat split.
  - replace (2 * length (c :: q)) with (2 + 2 * length q) by (simpl; lia).
    rewrite repeat_app. unfold execute. rewrite foldl_app.
    fold (execute (repeat (Activity (Run a)) 2) (fs, s)).
    fold (execute (repeat (Activity (Run a)) (2 * length q))
            (execute (repeat (Activity (Run a)) 2) (fs, s))).
    destruct (loop_round a fs s f c q w Ht He Hq Hw Ha)
      as (s' & Hr & Ht' & He' & Hq').
    simpl repeat. rewrite Hr.
    assert (Hw' : files (append_file f c fs) !! f = Some (w ++ [c])).
    { unfold append_file; simpl.
      rewrite lookup_alter, decide_True by reflexivity. now rewrite Hw. }
    destruct (IH (append_file f c fs) s' (w ++ [c]) Ht' He' Hw' Hq')
      as (H1 & H2 & H3).
    rewrite <- app_assoc in H1. now repeat split.
Qed.

Lemma writer_catches_up_witness :
  files (execute (repeat (Activity (Run Scenario.quiet))
                    (2 * length (_chunk_queue Scenario.three_queued.2)))
           (Scenario.three_queued.1, Scenario.three_queued.2)).1
  !! Scenario.beep_file
  = Some ([] ++ _chunk_queue Scenario.three_queued.2)
  /\ _chunk_queue
       (execute (repeat (Activity (Run Scenario.quiet))
                   (2 * length (_chunk_queue Scenario.three_queued.2)))
          (Scenario.three_queued.1, Scenario.three_queued.2)).2 = []
  /\ thread
       (execute (repeat (Activity (Run Scenario.quiet))
                   (2 * length (_chunk_queue Scenario.three_queued.2)))
          (Scenario.three_queued.1, Scenario.three_queued.2)).2
     = LoopHead Scenario.beep_file.
Proof.
  apply (writer_catches_up Scenario.quiet Scenario.three_queued.1
           Scenario.three_queued.2 Scenario.beep_file []).
  - reflexivity.
  - reflexivity.
  - vm_compute. reflexivity.
  - reflexivity.
Defined.




End SessionMore.

(** ** More on the recorder *)

Section RecorderMore.
Import PyStr Py Env Recorder Invariants.









Lemma input_devices_from_spec sd indices :
  (forall index e, index ∈ indices -> query_devices sd index = Raise e ->
                   isinstance e ValueError = true) ->
  (input_devices_from sd indices).2 = None
  /\ yielded (input_devices_from sd indices).1
     = omap (fun index => match query_devices sd index with
                          | Return device => Some (index, device)
                          | Raise _ => None
                          end) indices.
Proof.
  induction indices as [|index indices IH]; intros Hv; [now split|].
  destruct IH as [IH1 IH2].
  { intros i e Hi. apply Hv. now right. }
  simpl. destruct (query_devices sd index) as [device|e] eqn:Hq.
  - destruct (input_devices_from sd indices) as [items raised]; simpl in *.
    unfold yielded in *; simpl. now rewrite IH2.
  - rewrite (Hv index e) by (now left || exact Hq).
    destruct (input_devices_from sd indices) as [items raised]; simpl in *.
    unfold yielded in *; simpl. now rewrite IH2.
Qed.

(** X10. [input_devices] filters: when the two queries for the host API
    succeed and the query of a device index fails with nothing but
    [ValueError], the generator ends without exception and yields, in the
    order of the host API's list, each index whose query succeeded, with
    the device the query gave; the other indices are passed over. *)
Theorem input_devices_yields_the_input_devices
    (sd : sounddevice) (device : device_info) (indices : list Z) :
  query_devices_input sd = Return device ->
  query_hostapis sd (hostapi device) = Return indices ->
  (forall index e, index ∈ indices -> query_devices sd index = Raise e ->
                   isinstance e ValueError = true) ->
  (input_devices sd).2 = None
  /\ yielded (input_devices sd).1
     = omap (fun index => match query_devices sd index with
                          | Return device => Some (index, device)
                          | Raise _ => None
                          end) indices.
Proof.
  intros Hd Hh Hv. unfold input_devices. rewrite Hd, Hh.
  destruct (input_devices_from_spec sd indices Hv) as [H1 H2].
  destruct (input_devices_from sd indices) as [items raised]; simpl in *.
  split; [exact H1 | exact H2].
Qed.

Lemma input_devices_yields_the_input_devices_witness :
  (input_devices Scenario.two_mics).2 = None
  /\ yielded (input_devices Scenario.two_mics).1
     = omap (fun index => match query_devices Scenario.two_mics index with
                          | Return device => Some (index, device)
                          | Raise _ => None
                          end) [0; 1; 2]%Z.
Proof.
  apply (input_devices_yields_the_input_devices Scenario.two_mics
           Scenario.usb_mic [0; 1; 2]%Z).
  - reflexivity.
  - reflexivity.
  - intros index e _. unfold Scenario.two_mics; simpl.
    destruct (index =? 0)%Z; [discriminate|].
    destruct (index =? 1)%Z; [discriminate|].
    intros H. injection H as <-. reflexivity.
Defined.

(** X11. [record] on a recorder that holds no session creates one session
    for each device the generator yields, in that order: each with the
    noise name and the device index, the default directory, the stop flag
    not set, an empty queue, and its thread started. These sessions, and no
    others, are in [_recording_threads] afterwards; the sessions there
    were before and the file system are as they were. [record] raises only
    what the generator raised, after the sessions of the devices yielded
    until then were started. *)
Theorem record_starts_one_session_per_device
    (sd : sounddevice) (noise_name : pystr) (st : state) :
  _recording_threads st = [] ->
  (record sd noise_name st).1
  = match (input_devices sd).2 with
    | Some e => Raise e
    | None => Return tt
    end
  /\ sessions (record sd noise_name st).2
     = sessions st
       ++ map (fun d => Session.Session noise_name d.1
                          Session.DEFAULT_RECORDINGS_DIR false []
                          Session.Started [])
              (yielded (input_devices sd).1)
  /\ _recording_threads (record sd noise_name st).2
     = seq (length (sessions st)) (length (yielded (input_devices sd).1))
  /\ length (_recording_threads (record sd noise_name st).2)
     = length (yielded (input_devices sd).1)
  /\ fs (record sd noise_name st).2 = fs st.
Proof.
  intros Hidle.
  destruct (record_idle_spec sd noise_name st Hidle) as (H1 & H2 & H3 & H4).
  split; [exact H1|]. split; [exact H3|]. split; [exact H4|].
  split; [|exact H2]. rewrite H4. apply length_seq.
Qed.

Lemma record_starts_one_session_per_device_witness :
  length (_recording_threads Scenario.recording_beep) = 2
  /\ (Session.device_index <$> sessions Scenario.recording_beep) = [0; 1]%Z.
Proof.
  destruct (record_starts_one_session_per_device Scenario.two_mics (str "beep")
              (__init__ Scenario.no_files) eq_refl)
    as (_ & Hs & _ & Hl & _).
  split.
  - exact Hl.
  - unfold Scenario.recording_beep. rewrite Hs. reflexivity.
Defined.

(** The stop flags of all the sessions, and the log of calls. *)
Lemma happen_flags_calls ev st :
  Session._exit <$> sessions (happen ev st) = Session._exit <$> sessions st
  /\ calls (happen ev st) = calls st.
Proof.
  unfold happen. destruct (sessions st !! ev.1) as [s|] eqn:Hs; [|now split].
  pose proof (act_keeps_exit ev.2 (fs st) s) as He.
  destruct (Session.act ev.2 (fs st) s) as [fs' s']; simpl in *.
  split; [|reflexivity].
  rewrite list_fmap_insert, He. apply list_insert_id.
  now rewrite list_lookup_fmap, Hs.
Qed.

Lemma meanwhile_flags_calls sched st :
  Session._exit <$> sessions (meanwhile sched st) = Session._exit <$> sessions st
  /\ calls (meanwhile sched st) = calls st.
Proof.
  induction sched as [|ev sched [IH1 IH2]] using rev_ind; [now split|].
  rewrite meanwhile_app.
  destruct (happen_flags_calls ev (meanwhile sched st)) as [H1 H2].
  split; congruence.
Qed.

Lemma stop_session_flags_calls id st :
  Session._exit <$> sessions (stop_session id st)
  = <[id := true]> (Session._exit <$> sessions st)
  /\ calls (stop_session id st) = calls st.
Proof.
  unfold stop_session. destruct (sessions st !! id) as [s|] eqn:Hs; simpl.
  - split; [|reflexivity]. now rewrite list_fmap_insert.
  - split; [|reflexivity]. symmetry. apply list_insert_ge.
    rewrite length_fmap. now apply lookup_ge_None.
Qed.

Lemma stop_sessions_flags_calls ids st :
  Session._exit <$> sessions (foldl (fun st id => stop_session id st) st ids)
  = foldl (fun l id => <[id := true]> l) (Session._exit <$> sessions st) ids
  /\ calls (foldl (fun st id => stop_session id st) st ids) = calls st
  /\ _recording_threads (foldl (fun st id => stop_session id st) st ids)
     = _recording_threads st.
Proof.
  revert st. induction ids as [|id ids IH]; intros st; [now repeat split|].
  simpl. destruct (IH (stop_session id st)) as (H1 & H2 & H3).
  destruct (stop_session_flags_calls id st) as [K1 K2].
  destruct (stop_session_same_threads id st) as [K3 _ _].
  rewrite H1, H2, H3, K1, K2, K3. now repeat split.
Qed.

Lemma join_flags_calls id sched st :
  Session._exit <$> sessions (join id sched st).2 = Session._exit <$> sessions st
  /\ (started st id = true ->
      calls (join id sched st).2 = calls st ++ [ThreadJoin id]).
Proof.
  unfold join, started.
  destruct (meanwhile_flags_calls sched (log (ThreadJoin id) st)) as [M1 M2].
  destruct (Session.thread <$> sessions st !! id) as [[]|]; simpl;
    try (split; [reflexivity | discriminate]);
    (split; [exact M1 | intros _; exact M2]).
Qed.

Lemma join_all_flags_calls ids during st :
  Session._exit <$> sessions (join_all ids during st).2
  = Session._exit <$> sessions st
  /\ (forallb (started st) ids = true ->
      calls (join_all ids during st).2 = calls st ++ (ThreadJoin <$> ids)).
Proof.
  revert during st. induction ids as [|id ids IH]; intros during st; simpl.
  - split; [reflexivity|]. intros _. now rewrite app_nil_r.
  - destruct (join_spec id (hd [] during) st) as [Hs Hr].
    destruct (join_flags_calls id (hd [] during) st) as [Jf Jc].
    destruct (join id (hd [] during) st) as [[[]|e] st1]; simpl in *.
    + destruct (IH (tl during) st1) as [H1 H2]. split; [congruence|].
      intros Hall. apply andb_prop in Hall as [Hid Hall].
      rewrite H2, (Jc Hid), <- app_assoc; [reflexivity|].
      rewrite (forallb_same _ (started st)); [exact Hall | apply Hs].
    + split; [exact Jf|]. intros Hall. apply andb_prop in Hall as [Hid _].
      rewrite Hid in Hr. discriminate Hr.
Qed.

Lemma flags_after_stop_sessions ids (l : list bool) id :
  foldl (fun l id => <[id := true]> l) l ids !! id
  = (fun b => b || bool_decide (id ∈ ids)) <$> l !! id.
Proof.
  revert l. induction ids as [|i ids IH]; intros l; simpl.
  - destruct (l !! id); simpl; [|reflexivity]. now rewrite orb_false_r.
  - rewrite IH. destruct (decide (i = id)) as [->|Hne].
    + destruct (l !! id) as [b|] eqn:Hl.
      * rewrite list_lookup_insert_eq by (now apply lookup_lt_Some in Hl).
        simpl. rewrite bool_decide_eq_true_2 by (now left).
        now rewrite orb_true_r.
      * rewrite list_insert_ge by (now apply lookup_ge_None).
        now rewrite Hl.
    + rewrite list_lookup_insert_ne by exact Hne.
      destruct (l !! id); simpl; [|reflexivity]. f_equal. f_equal.
      apply bool_decide_ext. rewrite elem_of_cons. intuition congruence.
Qed.

Lemma stop_flags during st :
  Session._exit <$> sessions (stop during st).2
  = foldl (fun l id => <[id := true]> l) (Session._exit <$> sessions st)
      (_recording_threads st).
Proof.
  unfold stop.
  destruct (stop_sessions_flags_calls (_recording_threads st) st) as (H1 & _ & _).
  set (st1 := foldl _ st (_recording_threads st)) in *.
  destruct (join_all_flags_calls (_recording_threads st1) during st1) as [H2 _].
  destruct (join_all (_recording_threads st1) during st1) as [[[]|e] st2];
    simpl in *; congruence.
Qed.

Lemma stop_flag_lookup during st id :
  Session._exit <$> sessions (stop during st).2 !! id
  = (fun s => Session._exit s || bool_decide (id ∈ _recording_threads st))
    <$> sessions st !! id.
Proof.
  rewrite <- list_lookup_fmap, stop_flags, flags_after_stop_sessions.
  rewrite list_lookup_fmap. now destruct (sessions st !! id).
Qed.

(** X12. [stop] sets the stop flag of every session in
    [_recording_threads] and of no other, before it joins any: after
    [stop], however it ended and whatever the sessions did meanwhile, a
    session's flag is set exactly when it was set before or the session was
    in the list. No session object is lost. *)
Theorem stop_sets_flags_of_recording_threads
    (during : list (list (nat * Session.activity))) (st : state) (id : nat) :
  Session._exit <$> sessions (stop during st).2 !! id
  = (fun s => Session._exit s || bool_decide (id ∈ _recording_threads st))
    <$> sessions st !! id.
Proof. apply stop_flag_lookup. Qed.

(** X13. [stop] joins each session of [_recording_threads] once, in the
    order of the list, and calls nothing else: with one second for each
    join, its waiting is bounded by the number of sessions. *)
Theorem stop_joins_each_session_once
    (during : list (list (nat * Session.activity))) (st : state) :
  all_started st = true ->
  calls (stop during st).2 = calls st ++ (ThreadJoin <$> _recording_threads st).
Proof.
  intros Hall. unfold stop.
  destruct (stop_sessions_flags_calls (_recording_threads st) st)
    as (_ & Hc & Ht).
  pose proof (stop_sessions_same_threads (_recording_threads st) st) as Hs.
  set (st1 := foldl _ st (_recording_threads st)) in *.
  destruct (join_all_flags_calls (_recording_threads st1) during st1) as [_ H2].
  destruct (join_all_spec (_recording_threads st1) during st1) as [_ Hr].
  assert (Ha : forallb (started st1) (_recording_threads st1) = true).
  { rewrite <- Hall. apply (same_threads_all_started _ _ Hs). }
  specialize (H2 Ha). rewrite Ha in Hr.
  destruct (join_all (_recording_threads st1) during st1) as [[[]|e] st2];
    simpl in *; [|discriminate Hr].
  now rewrite H2, Hc, Ht.
Qed.

Lemma stop_joins_each_session_once_witness :
  calls (stop Scenario.nothing_arrives Scenario.waiting_beep).2
  = calls Scenario.waiting_beep
    ++ (ThreadJoin <$> _recording_threads Scenario.waiting_beep).
Proof.
  apply (stop_joins_each_session_once Scenario.nothing_arrives
           Scenario.waiting_beep).
  vm_compute. reflexivity.
Defined.

End RecorderMore.

(** ** The script *)

Section MainFacts.
Import PyStr Py Env Recorder Main Invariants.

Lemma while_recording_goes_on naps st :
  recording st = true ->
  forallb quiet_nap naps = true ->
  exists st', while_recording naps st = LoopGoesOn st' /\ same_threads st st'.
Proof.
  revert st. induction naps as [|n naps IH]; intros st Hrec Hq; simpl.
  - rewrite Hrec. exists st. split; [reflexivity | apply same_threads_refl].
  - rewrite Hrec. simpl in Hq. apply andb_prop in Hq as [Hn Hq].
    unfold quiet_nap in Hn. destruct (nap_raises n); [discriminate Hn|].
    pose proof (meanwhile_same_threads (nap_sched n) st) as Hs.
    destruct (IH (meanwhile (nap_sched n) st)) as (st' & Hw & Hs'); [|exact Hq|].
    + unfold recording in *. now rewrite (same_recording_threads _ _ Hs).
    + exists st'. split; [exact Hw|]. eapply same_threads_trans; eassumption.
Qed.

Lemma while_recording_raised pre sched e post st :
  recording st = true ->
  forallb quiet_nap pre = true ->
  exists st', while_recording (pre ++ Nap sched (Some e) :: post) st
              = LoopRaised e st'
              /\ same_threads st st'
              /\ Session._exit <$> sessions st' = Session._exit <$> sessions st.
Proof.
  revert st. induction pre as [|n pre IH]; intros st Hrec Hq; simpl.
  - rewrite Hrec. exists (meanwhile sched st).
    split; [reflexivity|]. split; [apply meanwhile_same_threads|].
    apply meanwhile_flags_calls.
  - rewrite Hrec. simpl in Hq. apply andb_prop in Hq as [Hn Hq].
    unfold quiet_nap in Hn. destruct (nap_raises n); [discriminate Hn|].
    pose proof (meanwhile_same_threads (nap_sched n) st) as Hs.
    destruct (meanwhile_flags_calls (nap_sched n) st) as [Hf _].
    destruct (IH (meanwhile (nap_sched n) st)) as (st' & Hw & Hs' & Hf');
      [|exact Hq|].
    + unfold recording in *. now rewrite (same_recording_threads _ _ Hs).
    + exists st'. split; [exact Hw|].
      split; [eapply same_threads_trans; eassumption | congruence].
Qed.

Lemma record_test_noise fs0 sd :
  (input_devices sd).2 = None ->
  exists st,
    record sd (str "test_noise") (__init__ fs0) = (Return tt, st)
    /\ all_started st = true
    /\ fs st = fs0
    /\ length (sessions st) = length (yielded (input_devices sd).1)
    /\ _recording_threads st = seq 0 (length (yielded (input_devices sd).1))
    /\ Forall (fun s => Session._exit s = false) (sessions st).
Proof.
  intros Hnone.
  destruct (record_idle_spec sd (str "test_noise") (__init__ fs0) eq_refl)
    as (H1 & H2 & H3 & H4).
  pose proof (record_all_started sd (str "test_noise") (__init__ fs0) eq_refl)
    as Hall.
  rewrite Hnone in H1.
  destruct (record sd (str "test_noise") (__init__ fs0)) as [r st].
  simpl in *. subst r. exists st. split; [reflexivity|].
  split; [exact Hall|]. split; [exact H2|].
  split; [now rewrite H3, length_map|]. split; [exact H4|].
  rewrite H3. apply Forall_map, Forall_forall. reflexivity.
Qed.

(** X14. The script does not end by itself while it records. When
    [record] has started a session and no exception ends a sleep, the loop
    of lines 163-164 goes on, however long and whatever the threads do,
    also when all of them have ended. On a machine where the generator
    yields no device the script ends at once, with no session and the file
    system as it was. *)
Theorem script_ends_only_without_device
    (fs0 : filesystem) (sd : sounddevice) (naps : list nap)
    (during : list (list (nat * Session.activity))) :
  (input_devices sd).2 = None ->
  forallb quiet_nap naps = true ->
  match yielded (input_devices sd).1 with
  | [] => main fs0 sd naps during = Ended (State fs0 [] [] (calls
            (record sd (str "test_noise") (__init__ fs0)).2))
  | _ :: _ => exists st, main fs0 sd naps during = Polling st
                         /\ recording st = true
  end.
Proof.
  intros Hnone Hq. unfold main; cbv zeta.
  destruct (record_test_noise fs0 sd Hnone) as (st & Hrec & _ & Hfs & Hl & Ht & _).
  rewrite Hrec. simpl.
  destruct (yielded (input_devices sd).1) as [|d ds]; simpl in *.
  - assert (Hr : recording st = false) by now apply recording_false.
    destruct naps; simpl; rewrite Hr; f_equal;
      destruct st as [f ss ts cs]; simpl in *; subst;
      now destruct ss.
  - assert (Hr : recording st = true).
    { apply recording_true. rewrite Ht. discriminate. }
    destruct (while_recording_goes_on naps st Hr Hq) as (st' & Hw & Hs).
    rewrite Hw. exists st'. split; [reflexivity|].
    unfold recording in *. now rewrite (same_recording_threads _ _ Hs).
Qed.

Lemma script_ends_only_without_device_witness :
  (exists st,
     main Scenario.no_files Scenario.two_mics
       [Nap Scenario.both_fall_silent None; Nap [] None] [] = Polling st
     /\ recording st = true)
  /\ main Scenario.no_files Scenario.no_mics [Nap [] None] []
     = Ended (State Scenario.no_files [] []
                (calls (record Scenario.no_mics (str "test_noise")
                          (__init__ Scenario.no_files)).2)).
Proof.
  split.
  - apply (script_ends_only_without_device Scenario.no_files Scenario.two_mics
             [Nap Scenario.both_fall_silent None; Nap [] None] []);
      reflexivity.
  - apply (script_ends_only_without_device Scenario.no_files Scenario.no_mics
             [Nap [] None] []); reflexivity.
Defined.

(** X15. When an exception ends a sleep of the script, as
    [KeyboardInterrupt] does, the handler of line 165 calls [stop]: every
    session [record] started has its stop flag set, the recorder holds no
    session any more, and the exception leaves the script. *)
Theorem script_interrupted_stops_sessions
    (fs0 : filesystem) (sd : sounddevice) (pre post : list nap)
    (sched : list (nat * Session.activity)) (e : exn)
    (during : list (list (nat * Session.activity))) :
  (input_devices sd).2 = None ->
  yielded (input_devices sd).1 <> [] ->
  forallb quiet_nap pre = true ->
  exists st,
    main fs0 sd (pre ++ Nap sched (Some e) :: post) during = Raised e st
    /\ recording st = false
    /\ length (sessions st) = length (yielded (input_devices sd).1)
    /\ Forall (fun s => Session._exit s = true) (sessions st).
Proof.
  intros Hnone Hsome Hq. unfold main; cbv zeta.
  destruct (record_test_noise fs0 sd Hnone)
    as (st0 & Hrec & Hall & _ & Hl & Ht & _).
  rewrite Hrec. simpl.
  assert (Hr : recording st0 = true).
  { apply recording_true. rewrite Ht.
    destruct (yielded (input_devices sd).1); [contradiction | discriminate]. }
  destruct (while_recording_raised pre sched e post st0 Hr Hq)
    as (st1 & Hw & Hs & _).
  rewrite Hw. exists (stop during st1).2. split; [reflexivity|].
  destruct (stop_spec during st1) as (_ & Hlen & Hstop).
  rewrite (same_threads_all_started _ _ Hs), Hall in Hstop.
  destruct Hstop as [_ Hempty].
  split; [now apply recording_false|].
  split; [now rewrite Hlen, (same_length _ _ Hs)|].
  apply Forall_lookup. intros i s Hi.
  pose proof (stop_flag_lookup during st1 i) as Hflag.
  rewrite Hi in Hflag. simpl in Hflag.
  assert (Hlt : i < length (sessions st1)).
  { rewrite <- Hlen. now apply lookup_lt_Some in Hi. }
  destruct (sessions st1 !! i) as [s1|] eqn:Hi1;
    [|apply lookup_ge_None in Hi1; lia].
  simpl in Hflag. injection Hflag as ->.
  rewrite bool_decide_eq_true_2; [apply orb_true_r|].
  rewrite (same_recording_threads _ _ Hs), Ht.
  apply elem_of_seq. rewrite (same_length _ _ Hs), Hl in Hlt. lia.
Qed.

Lemma script_interrupted_stops_sessions_witness :
  exists st,
    main Scenario.no_files Scenario.two_mics
      ([Nap Scenario.both_go_waiting None]
       ++ Nap [] (Some (Exn KeyboardInterrupt "")) :: [])
      Scenario.nothing_arrives
    = Raised (Exn KeyboardInterrupt "") st
    /\ recording st = false
    /\ length (sessions st)
       = length (yielded (input_devices Scenario.two_mics).1)
    /\ Forall (fun s => Session._exit s = true) (sessions st).
Proof.
  apply (script_interrupted_stops_sessions Scenario.no_files Scenario.two_mics
           [Nap Scenario.both_go_waiting None] [] []
           (Exn KeyboardInterrupt "") Scenario.nothing_arrives).
  - reflexivity.
  - discriminate.
  - reflexivity.
Defined.

(** X16. [record] is called outside the [try] of the script: when the
    generator raises, the exception leaves the script at once and [stop] is
    not called; the sessions started until then keep their stop flag
    unset. *)
Theorem script_leaves_sessions_running_when_record_raises
    (fs0 : filesystem) (sd : sounddevice) (naps : list nap)
    (during : list (list (nat * Session.activity))) (e : exn) :
  (input_devices sd).2 = Some e ->
  main fs0 sd naps during
  = Raised e (record sd (str "test_noise") (__init__ fs0)).2
  /\ length (sessions (record sd (str "test_noise") (__init__ fs0)).2)
     = length (yielded (input_devices sd).1)
  /\ Forall (fun s => Session._exit s = false
                      /\ Session.thread s = Session.Started)
       (sessions (record sd (str "test_noise") (__init__ fs0)).2).
Proof.
  intros Hsome. unfold main; cbv zeta.
  destruct (record_idle_spec sd (str "test_noise") (__init__ fs0) eq_refl)
    as (H1 & _ & H3 & _).
  rewrite Hsome in H1.
  destruct (record sd (str "test_noise") (__init__ fs0)) as [r st].
  simpl in *. subst r. split; [reflexivity|].
  rewrite H3. split; [now rewrite length_map|].
  apply Forall_map, Forall_forall. now split.
Qed.

Lemma script_leaves_sessions_running_when_record_raises_witness :
  main Scenario.no_files Scenario.flaky_mics [Nap [] None] []
  = Raised (Exn PortAudioError "Error querying device 1")
      (record Scenario.flaky_mics (str "test_noise")
         (__init__ Scenario.no_files)).2
  /\ length (sessions (record Scenario.flaky_mics (str "test_noise")
                         (__init__ Scenario.no_files)).2) = 1.
Proof.
  destruct (script_leaves_sessions_running_when_record_raises
              Scenario.no_files Scenario.flaky_mics [Nap [] None] []
              (Exn PortAudioError "Error querying device 1") eq_refl)
    as (H1 & H2 & _).
  split; [exact H1 | exact H2].
Defined.

End MainFacts.
